(** * Sandboxed text editor: path guard, patch engine, undo history

    A shallow embedding of [src/text_editor/index.ts]: the path validator
    ([validatePath]), the edit engine ([applyFileEdits]), the line inserter
    ([insertAtLine]), the history store ([saveToHistory]) and the
    [undo_edit] handler, together with the properties the specification
    states about them.

    JavaScript strings are modelled as [string]: a sequence of code units in
    the range 0..255, and a file by the text that reading it returns. Where
    a property depends on the bytes of a file or on a write that fails, the
    modules [Utf8] and [Wide] give the same functions over 16-bit code units,
    with the UTF-8 decoder and encoder between file and text. *)

From Stdlib Require Import Ascii.
From Stdlib Require OctalString.
From stdpp Require Import gmap strings list.

(** ** JavaScript string built-ins used by the editor *)

Module JS.

Definition LF : ascii := "010"%char.
Definition CR : ascii := "013"%char.
Definition nl : string := String LF "".
Definition crlf : string := String CR (String LF "").

(** [\s] of a regular expression, and the characters [trim] strips: the
    WhiteSpace and LineTerminator code units below 256. *)
Definition isWhiteSpace (c : ascii) : bool :=
  match c with
  | "009" | "010" | "011" | "012" | "013" | " " | "160" => true
  | _ => false
  end%char.

Definition isEmpty (s : string) : bool :=
  match s with "" => true | _ => false end.

(** [s.startsWith(d)] *)
Definition startsWith (s d : string) : bool := String.prefix d s.

(** [s.indexOf(needle)], [None] for -1. *)
Fixpoint indexOf (needle s : string) : option nat :=
  if String.prefix needle s then Some 0
  else match s with
       | "" => None
       | String _ s' => option_map S (indexOf needle s')
       end.

(** [s.includes(needle)] *)
Definition includes (s needle : string) : bool :=
  match indexOf needle s with Some _ => true | None => false end.

(** [s.slice(0, n)] and [s.slice(n)] for [0 <= n]. *)
Fixpoint takeS (n : nat) (s : string) : string :=
  match n, s with
  | S n', String c s' => String c (takeS n' s')
  | _, _ => ""
  end.

Fixpoint dropS (n : nat) (s : string) : string :=
  match n, s with
  | S n', String _ s' => dropS n' s'
  | _, _ => s
  end.

(** [c.repeat(n)] for a one-character string. *)
Fixpoint repeatChar (c : ascii) (n : nat) : string :=
  match n with 0 => "" | S n' => String c (repeatChar c n') end.

(** GetSubstitution of ECMAScript, for a string pattern: there are no
    captures, so [$n] and [$<] stand for themselves; [$$], [$&], [$`] and
    [$'] are expanded. *)
Fixpoint getSubstitution (matched preceding following template : string)
  : string :=
  match template with
  | "" => ""
  | String c rest =>
      let literal := String c (getSubstitution matched preceding following rest) in
      if Ascii.eqb c "$" then
        match rest with
        | String d rest' =>
            let tail := getSubstitution matched preceding following rest' in
            if Ascii.eqb d "$" then String "$" tail
            else if Ascii.eqb d "&" then matched +:+ tail
            else if Ascii.eqb d "`" then preceding +:+ tail
            else if Ascii.eqb d "'" then following +:+ tail
            else literal
        | "" => literal
        end
      else literal
  end.

(** [s.replace(pattern, replacement)] with a string pattern: the first
    occurrence only, the replacement read as a template. *)
Definition replace (s pattern replacement : string) : string :=
  match indexOf pattern s with
  | None => s
  | Some pos =>
      let preceding := takeS pos s in
      let following := dropS (pos + String.length pattern) s in
      preceding
        +:+ getSubstitution pattern preceding following replacement
        +:+ following
  end.

(** What a literal replacement of the first occurrence would give. *)
Definition replaceLiteral (s pattern replacement : string) : string :=
  match indexOf pattern s with
  | None => s
  | Some pos =>
      takeS pos s +:+ replacement +:+ dropS (pos + String.length pattern) s
  end.

(** [s.replace(/\r\n/g, '\n')] *)
Fixpoint replaceAllCRLF (s : string) : string :=
  match s with
  | "" => ""
  | String c rest =>
      if Ascii.eqb c CR then
        match rest with
        | String d rest' =>
            if Ascii.eqb d LF then String LF (replaceAllCRLF rest')
            else String c (replaceAllCRLF rest)
        | "" => String c (replaceAllCRLF rest)
        end
      else String c (replaceAllCRLF rest)
  end.

(** [s.trimStart()] *)
Fixpoint trimStart (s : string) : string :=
  match s with
  | String c s' => if isWhiteSpace c then trimStart s' else s
  | "" => ""
  end.

(** [s.trimEnd()] *)
Fixpoint trimEnd (s : string) : string :=
  match s with
  | "" => ""
  | String c s' =>
      let r := trimEnd s' in
      if isWhiteSpace c && isEmpty r then "" else String c r
  end.

(** [s.trim()] *)
Definition trim (s : string) : string := trimEnd (trimStart s).

(** [s.match(/^\s*/)?.[0] || ''] : the leading run of whitespace. *)
Fixpoint leadingWhitespace (s : string) : string :=
  match s with
  | String c s' => if isWhiteSpace c then String c (leadingWhitespace s') else ""
  | "" => ""
  end.

(** [s.split(sep)] for a one-character separator: never empty, [""] splits
    to [[""]]. *)
Fixpoint splitOn (sep : ascii) (s : string) : list string :=
  match s with
  | "" => [""]
  | String c s' =>
      if Ascii.eqb c sep then "" :: splitOn sep s'
      else match splitOn sep s' with
           | h :: t => String c h :: t
           | [] => [String c ""]
           end
  end.

(** [s.split('\n')] *)
Definition splitLines (s : string) : list string := splitOn LF s.

(** [lines.join('\n')] *)
Definition joinLines (lines : list string) : string := String.concat nl lines.

(** [a.slice(i, j)] for [0 <= i <= j]. *)
Definition slice {A} (i j : nat) (a : list A) : list A := take (j - i) (drop i a).

(** [a.splice(i, n, ...items)] : the array afterwards. *)
Definition splice {A} (i n : nat) (items a : list A) : list A :=
  take i a ++ items ++ drop (i + n) a.

(** The same with the start index as the caller gives it: a negative start
    counts from the end, and the start is clamped to the array. *)
Definition relativeStart (start : Z) (len : nat) : nat :=
  if (start <? 0)%Z then Z.to_nat (Z.max (Z.of_nat len + start) 0)
  else Z.to_nat (Z.min start (Z.of_nat len)).

Definition spliceAt {A} (start : Z) (n : nat) (items a : list A) : list A :=
  splice (relativeStart start (length a)) n items a.

End JS.

Import JS.

(** ** The [path] module of Node (POSIX flavour) *)

Module Path.

Definition isAbsolute (p : string) : bool :=
  match p with String c _ => Ascii.eqb c "/" | "" => false end.

Definition endsWithSlash (p : string) : bool :=
  match rev (String.list_ascii_of_string p) with
  | c :: _ => Ascii.eqb c "/"
  | [] => false
  end.

(** [normalizeString]: the segments are read left to right onto a stack;
    empty and [.] segments are skipped, [..] pops a segment that is not
    itself [..], and is kept only when [allowAboveRoot]. *)
Fixpoint normalizeSegments (allowAboveRoot : bool) (segs stack : list string)
  : list string :=
  match segs with
  | [] => rev stack
  | seg :: segs' =>
      if isEmpty seg || String.eqb seg "." then
        normalizeSegments allowAboveRoot segs' stack
      else if String.eqb seg ".." then
        match stack with
        | top :: below =>
            if String.eqb top ".." then
              normalizeSegments allowAboveRoot segs'
                (if allowAboveRoot then ".." :: stack else stack)
            else normalizeSegments allowAboveRoot segs' below
        | [] =>
            normalizeSegments allowAboveRoot segs'
              (if allowAboveRoot then [".."] else [])
        end
      else normalizeSegments allowAboveRoot segs' (seg :: stack)
  end.

Definition normalizeString (p : string) (allowAboveRoot : bool) : string :=
  String.concat "/" (normalizeSegments allowAboveRoot (splitOn "/" p) []).

(** [path.normalize(p)] *)
Definition normalize (p : string) : string :=
  if isEmpty p then "."
  else
    let abs := isAbsolute p in
    let trailingSeparator := endsWithSlash p in
    let q := normalizeString p (negb abs) in
    if isEmpty q then
      if abs then "/" else if trailingSeparator then "./" else "."
    else
      let q := if trailingSeparator then q +:+ "/" else q in
      if abs then "/" +:+ q else q.

(** The right-to-left loop of [path.resolve]: arguments are prepended until
    an absolute one is met. *)
Fixpoint resolveLoop (argsRev : list string) (resolvedPath : string)
  : string * bool :=
  match argsRev with
  | [] => (resolvedPath, false)
  | p :: rest =>
      if isEmpty p then resolveLoop rest resolvedPath
      else
        let resolvedPath := p +:+ "/" +:+ resolvedPath in
        if isAbsolute p then (resolvedPath, true)
        else resolveLoop rest resolvedPath
  end.

(** [path.resolve(...args)], [cwd] being [process.cwd()]. *)
Definition resolve (cwd : string) (args : list string) : string :=
  let '(resolvedPath, resolvedAbsolute) := resolveLoop (rev (cwd :: args)) "" in
  let q := normalizeString resolvedPath (negb resolvedAbsolute) in
  if resolvedAbsolute then "/" +:+ q
  else if isEmpty q then "." else q.

(** [path.join(...args)] *)
Definition join (args : list string) : string :=
  match filter (fun a => isEmpty a = false) args with
  | [] => "."
  | nonEmpty => normalize (String.concat "/" nonEmpty)
  end.

(** The backwards scan of [path.dirname] over the characters at the indices
    [i], [i-1], ..., 1, given last first. *)
Fixpoint dirnameScan (charsRev : list ascii) (i : nat) (matchedSlash : bool)
  : option nat :=
  match charsRev with
  | [] => None
  | c :: before =>
      if Ascii.eqb c "/" then
        if matchedSlash then dirnameScan before (i - 1) true else Some i
      else dirnameScan before (i - 1) false
  end.

(** [path.dirname(p)] *)
Definition dirname (p : string) : string :=
  match p with
  | "" => "."
  | String c0 tl =>
      let hasRoot := Ascii.eqb c0 "/" in
      match dirnameScan (rev (String.list_ascii_of_string tl))
                        (String.length tl) true with
      | None => if hasRoot then "/" else "."
      | Some e => if hasRoot && (e =? 1) then "//" else takeS e p
      end
  end.

End Path.

(** ** Errors

    The handlers throw [Error] objects that differ by their message; each
    constructor stands for one message of the source. *)

Inductive DeniedReason :=
  | PathOutside      (* "path outside allowed directories: ..." *)
  | SymlinkOutside   (* "symlink target outside allowed directories" *)
  | ParentOutside.   (* "parent directory outside allowed directories" *)

Inductive Error :=
  | AccessDenied (why : DeniedReason)
  | ParentNotFound (parentDir : string)
  | NoMatchFound (oldText : string)
  | NoHistory (path : string)
  | FsFault (path : string).   (* a rejection of the [fs] module (ENOENT, ...) *)

Definition Result (A : Type) : Type := Error + A.

Definition isOk {A} (r : Result A) : bool :=
  match r with inr _ => true | inl _ => false end.

(** ** PathGuard *)

(** What [validatePath] reads from the process and the file system. *)
Record NodeEnv := {
  homedir : string;                     (* os.homedir() *)
  cwd : string;                         (* process.cwd() *)
  realpath : string -> option string;   (* fs.realpath, [None] when it rejects *)
}.

Section PathGuard.

Variable env : NodeEnv.
Variable args : list string.   (* process.argv.slice(2) *)

Definition normalizePath (p : string) : string := Path.normalize p.

Definition expandHome (filepath : string) : string :=
  if startsWith filepath "~/" || String.eqb filepath "~" then
    Path.join [homedir env; dropS 1 filepath]
  else filepath.

Definition allowedDirectories : list string :=
  map (fun dir => normalizePath (Path.resolve (cwd env) [expandHome dir])) args.

(** [allowedDirectories.some(dir => p.startsWith(dir))] *)
Definition someStartsWith (p : string) : bool :=
  existsb (fun dir => startsWith p dir) allowedDirectories.

(** The [absolute] path computed at the head of [validatePath]. *)
Definition absoluteOf (requestedPath : string) : string :=
  let expandedPath := expandHome requestedPath in
  if Path.isAbsolute expandedPath
  then Path.resolve (cwd env) [expandedPath]
  else Path.resolve (cwd env) [cwd env; expandedPath].

(** The body of the outer [try]: an error thrown here, whether by
    [fs.realpath] or by the [throw] of the source, reaches the [catch]. *)
Definition realPathCheck (absolute : string) : Result string :=
  match realpath env absolute with
  | None => inl (FsFault absolute)
  | Some realPath =>
      let normalizedReal := normalizePath realPath in
      let isRealPathAllowed := someStartsWith normalizedReal in
      if negb isRealPathAllowed then inl (AccessDenied SymlinkOutside)
      else inr realPath
  end.

(** The body of the inner [try]. *)
Definition parentCheck (absolute parentDir : string) : Result string :=
  match realpath env parentDir with
  | None => inl (FsFault parentDir)
  | Some realParentPath =>
      let normalizedParent := normalizePath realParentPath in
      let isParentAllowed := someStartsWith normalizedParent in
      if negb isParentAllowed then inl (AccessDenied ParentOutside)
      else inr absolute
  end.

Definition validatePath (requestedPath : string) : Result string :=
  let absolute := absoluteOf requestedPath in
  let normalizedRequested := normalizePath absolute in
  let isAllowed := someStartsWith normalizedRequested in
  if negb isAllowed then inl (AccessDenied PathOutside)
  else
    match realPathCheck absolute with
    | inr realPath => inr realPath
    | inl _ (* catch (error) *) =>
        let parentDir := Path.dirname absolute in
        match parentCheck absolute parentDir with
        | inr p => inr p
        | inl _ (* catch *) => inl (ParentNotFound parentDir)
        end
    end.

End PathGuard.

(** ** PatchEngine: the pure part *)

Record Edit := { oldText : string; newText : string }.

Definition normalizeLineEndings (text : string) : string := replaceAllCRLF text.

(** [oldLines.every((oldLine, j) => oldLine.trim() === potentialMatch[j].trim())].
    The loop bound keeps [potentialMatch] as long as [oldLines]; a shorter
    one is no match here. *)
Fixpoint isMatch (oldLines potentialMatch : list string) : bool :=
  match oldLines, potentialMatch with
  | [], _ => true
  | oldLine :: oldLines', contentLine :: rest =>
      String.eqb (trim oldLine) (trim contentLine) && isMatch oldLines' rest
  | _ :: _, [] => false
  end.

(** The indices the [for] loop visits: [0 <= i <= contentLines.length -
    oldLines.length], none when the difference is negative. *)
Definition windowStarts (nContent nOld : nat) : list nat :=
  if nOld <=? nContent then seq 0 (nContent - nOld + 1) else [].

Definition matchesAt (oldLines contentLines : list string) (i : nat) : bool :=
  isMatch oldLines (slice i (i + length oldLines) contentLines).

(** The first index at which the loop finds [isMatch]. *)
Definition findWindow (oldLines contentLines : list string) : option nat :=
  List.find (matchesAt oldLines contentLines)
            (windowStarts (length contentLines) (length oldLines)).

(** The callback of [normalizedNew.split('\n').map((line, j) => ...)]. *)
Definition reindent (originalIndent : string) (oldLines : list string)
    (j : nat) (line : string) : string :=
  if j =? 0 then originalIndent +:+ trimStart line
  else
    let oldIndent :=
      match oldLines !! j with
      | Some oldLine => leadingWhitespace oldLine
      | None => ""
      end in
    let newIndent := leadingWhitespace line in
    if negb (isEmpty oldIndent) && negb (isEmpty newIndent) then
      let relativeIndent :=
        (Z.of_nat (String.length newIndent) - Z.of_nat (String.length oldIndent))%Z in
      originalIndent
        +:+ repeatChar " " (Z.to_nat (Z.max 0 relativeIndent))
        +:+ trimStart line
    else line.

(** The replacement of the window found at [i]. *)
Definition replaceWindow (oldLines contentLines : list string)
    (normalizedNew : string) (i : nat) : string :=
  let originalIndent :=
    match contentLines !! i with
    | Some l => leadingWhitespace l
    | None => ""
    end in
  let newLines := imap (reindent originalIndent oldLines) (splitLines normalizedNew) in
  joinLines (splice i (length oldLines) newLines contentLines).

(** Which branch of the loop body handled an edit. *)
Inductive Pass :=
  | ExactPass
  | FuzzyPass (i : nat).

(** One turn of the [for (const edit of edits)] loop. *)
Definition applyEdit (modifiedContent : string) (edit : Edit)
  : Result (Pass * string) :=
  let normalizedOld := normalizeLineEndings (oldText edit) in
  let normalizedNew := normalizeLineEndings (newText edit) in
  if includes modifiedContent normalizedOld then
    inr (ExactPass, replace modifiedContent normalizedOld normalizedNew)
  else
    let oldLines := splitLines normalizedOld in
    let contentLines := splitLines modifiedContent in
    match findWindow oldLines contentLines with
    | Some i => inr (FuzzyPass i, replaceWindow oldLines contentLines normalizedNew i)
    | None => inl (NoMatchFound (oldText edit))
    end.

(** The whole loop: the first edit without a match throws. *)
Fixpoint applyEdits (modifiedContent : string) (edits : list Edit)
  : Result string :=
  match edits with
  | [] => inr modifiedContent
  | edit :: rest =>
      match applyEdit modifiedContent edit with
      | inr (_, modifiedContent') => applyEdits modifiedContent' rest
      | inl e => inl e
      end
  end.

(** [while (diff.includes('`'.repeat(numBackticks))) numBackticks++]. A run
    longer than [diff] does not occur in it, so [fuel] beyond its length is
    never used up. *)
Fixpoint fenceLoop (fuel numBackticks : nat) (diff : string) : nat :=
  match fuel with
  | 0 => numBackticks
  | S fuel' =>
      if includes diff (repeatChar "`" numBackticks)
      then fenceLoop fuel' (S numBackticks) diff
      else numBackticks
  end.

Definition numBackticksFor (diff : string) : nat :=
  fenceLoop (S (String.length diff)) 3 diff.

Definition fenced (diff trailer : string) : string :=
  let fence := repeatChar "`" (numBackticksFor diff) in
  fence +:+ "diff" +:+ nl +:+ diff +:+ fence +:+ nl +:+ nl +:+ trailer.

(** ** Process state and effects

    The handlers read and write files and the process-wide [editHistory]
    map. A thrown error leaves the mutations made before it in place.

    This state is at the level of text: [files] gives, for a path as it is
    written, the text that reading the file returns, and a write stores the
    text. The bytes of a file, the UTF-8 layer between bytes and text and a
    write that the file system refuses are in [Utf8] and [Wide] below; the
    properties that depend on them are stated there. *)

Record State := mkState {
  files : gmap string string;                (* file contents by path *)
  editHistory : gmap string (list string);   (* new Map<string, string[]>() *)
}.

Definition MAX_HISTORY_SIZE : nat := 10.

Definition initialState (fs : gmap string string) : State :=
  {| files := fs; editHistory := ∅ |}.

Definition M (A : Type) : Type := State -> Result A * State.

Definition ret {A} (a : A) : M A := fun st => (inr a, st).

Definition throw {A} (e : Error) : M A := fun st => (inl e, st).

Definition bind {A B} (m : M A) (k : A -> M B) : M B :=
  fun st =>
    match m st with
    | (inr a, st') => k a st'
    | (inl e, st') => (inl e, st')
    end.

Notation "x <- m ;; k" := (bind m (fun x => k))
  (at level 62, m at level 60, k at level 62).
Notation "'exec' m ;; k" := (bind m (fun _ => k))
  (at level 62, m at level 60, k at level 62).

Definition liftResult {A} (r : Result A) : M A :=
  match r with inr a => ret a | inl e => throw e end.

(** [fs.readFile(path, 'utf-8')], as text *)
Definition readFile (path : string) : M string :=
  fun st =>
    match files st !! path with
    | Some content => (inr content, st)
    | None => (inl (FsFault path), st)
    end.

(** [fs.writeFile(path, content, 'utf-8')], as text and when the file
    system accepts the write *)
Definition writeFile (path content : string) : M unit :=
  fun st =>
    (inr tt, {| files := <[path := content]> (files st);
                editHistory := editHistory st |}).

(** ** HistoryStore *)

Definition pushBounded (history : list string) (content : string) : list string :=
  let history := history ++ [content] in                       (* push *)
  if MAX_HISTORY_SIZE <? length history then tail history       (* shift *)
  else history.

Definition saveToHistory (filePath content : string) : M unit :=
  fun st =>
    let history := default [] (editHistory st !! filePath) in
    (inr tt, {| files := files st;
                editHistory := <[filePath := pushBounded history content]>
                                 (editHistory st) |}).

Section Editor.

(** [createTwoFilesPatch] of the [diff] package. *)
Variable createTwoFilesPatch :
  string -> string -> string -> string -> string -> string -> string.

Definition createUnifiedDiff (originalContent newContent filepath : string)
  : string :=
  let normalizedOriginal := normalizeLineEndings originalContent in
  let normalizedNew := normalizeLineEndings newContent in
  createTwoFilesPatch filepath filepath normalizedOriginal normalizedNew
    "original" "modified".

(** ** PatchEngine *)

Definition applyFileEdits (filePath : string) (edits : list Edit)
    (dryRun : bool) : M string :=
  raw <- readFile filePath ;;
  let content := normalizeLineEndings raw in
  exec (if dryRun then ret tt else saveToHistory filePath content) ;;
  modifiedContent <- liftResult (applyEdits content edits) ;;
  let diff := createUnifiedDiff content modifiedContent filePath in
  let formattedDiff := fenced diff "" in
  exec (if dryRun then ret tt else writeFile filePath modifiedContent) ;;
  ret formattedDiff.

(** ** LineInserter *)

(** The lines of [insertAtLine] after the insertion. *)
Definition insertLines (content : string) (insertLine : Z) (newText : string)
  : list string :=
  let lines := splitLines content in
  if (insertLine =? 0)%Z then newText :: lines                 (* unshift *)
  else
    let actualLine := Z.min insertLine (Z.of_nat (length lines)) in
    spliceAt actualLine 0 [newText] lines.

Definition insertAtLine (filePath : string) (insertLine : Z)
    (newText : string) : M string :=
  content <- readFile filePath ;;
  exec saveToHistory filePath content ;;
  let modifiedContent := joinLines (insertLines content insertLine newText) in
  exec writeFile filePath modifiedContent ;;
  let diff := createUnifiedDiff content modifiedContent filePath in
  ret (fenced diff "").

(** ** The [undo_edit] command, after [validatePath] *)

Definition undoEdit (validPath requestedPath : string) : M string :=
  fun st =>
    match editHistory st !! validPath with
    | None => (inl (NoHistory requestedPath), st)
    | Some history =>
        match last history with
        | None => (inl (NoHistory requestedPath), st)
        | Some previousContent =>
            let st' := {| files := files st;
                          editHistory := <[validPath := removelast history]>
                                           (editHistory st) |} in
            (currentContent <- readFile validPath ;;
             exec writeFile validPath previousContent ;;
             let diff := createUnifiedDiff currentContent previousContent validPath in
             ret (fenced diff "Reverted to previous version.")) st'
        end
    end.

(** ** Sequences of mutating requests on resolved paths *)

Inductive Op :=
  | OpEdit (path : string) (edits : list Edit) (dryRun : bool)
  | OpInsert (path : string) (insertLine : Z) (newText : string)
  | OpUndo (path : string)
  | OpCreate (path content : string).

Definition runOp (op : Op) : M string :=
  match op with
  | OpEdit path edits dryRun => applyFileEdits path edits dryRun
  | OpInsert path insertLine newText => insertAtLine path insertLine newText
  | OpUndo path => undoEdit path path
  | OpCreate path content => exec writeFile path content ;; ret ""
  end.

(** The state after a sequence of requests; a failed request is reported to
    the caller and the server goes on with the next one. *)
Definition runOps (ops : list Op) (st : State) : State :=
  fold_left (fun st op => snd (runOp op st)) ops st.

End Editor.

(** ** Vocabulary of the properties *)

(** "[needle] occurs in [s] as a literal substring". *)
Definition occursIn (needle s : string) : Prop :=
  exists pre post, s = pre +:+ needle +:+ post.

(** "[root] is a path-segment-respecting prefix of [p]": [p] is [root] or
    continues it with a separator. *)
Definition withinRoot (root p : string) : bool :=
  String.eqb p root || startsWith p (root +:+ "/").

(** "A window of [len(oldLines)] consecutive buffer lines, starting at
    [i], whose every line equals the corresponding old line after
    trimming". *)
Definition windowMatches (oldLines contentLines : list string) (i : nat) : Prop :=
  i + length oldLines <= length contentLines /\
  forall j oldLine, oldLines !! j = Some oldLine ->
    exists contentLine,
      contentLines !! (i + j) = Some contentLine /\
      trim oldLine = trim contentLine.

(** The history map after [saveToHistory path content]. *)
Definition pushed (st : State) (path content : string)
  : gmap string (list string) :=
  <[path := pushBounded (default [] (editHistory st !! path)) content]>
    (editHistory st).

(** Every stack of the history map holds at most [MAX_HISTORY_SIZE]
    snapshots. *)
Definition histBounded (st : State) : Prop :=
  forall path history,
    editHistory st !! path = Some history -> length history <= MAX_HISTORY_SIZE.

(** The last [n] entries of a list. *)
Definition lastN {A} (n : nat) (l : list A) : list A := drop (length l - n) l.

(** A request that changes the file at [p]: an insertion, or an edit that
    is not a dry run. *)
Definition mutatesPath (p : string) (op : Op) : bool :=
  match op with
  | OpInsert q _ _ => String.eqb q p
  | OpEdit q _ dryRun => String.eqb q p && negb dryRun
  | OpUndo _ | OpCreate _ _ => false
  end.

(** The snapshot such a request saves, given the content it reads. *)
Definition snapshotTaken (op : Op) (onDisk : string) : string :=
  match op with
  | OpEdit _ _ _ => normalizeLineEndings onDisk
  | _ => onDisk
  end.

(** The snapshots saved by a sequence of requests, oldest first. *)
Fixpoint snapshots
    (patch : string -> string -> string -> string -> string -> string -> string)
    (p : string) (ops : list Op) (st : State) : list string :=
  match ops with
  | [] => []
  | op :: rest =>
      snapshotTaken op (default "" (files st !! p))
        :: snapshots patch p rest (snd (runOp patch op st))
  end.

(** ** Data for the examples *)

(** A file system for examples: the existing paths with their real paths. *)
Definition realpathOf (table : list (string * string)) (p : string)
  : option string :=
  snd <$> find (fun e => String.eqb (fst e) p) table.

(** One allowed root [/a/allowed]; inside it a file and a symlink [link] to
    [/etc/passwd]; beside it the directory [/a/allowed-evil]. *)
Definition demoEnv : NodeEnv := {|
  homedir := "/home/u";
  cwd := "/a/allowed";
  realpath := realpathOf
    [ ("/", "/"); ("/a", "/a"); ("/a/allowed", "/a/allowed");
      ("/a/allowed/f.txt", "/a/allowed/f.txt");
      ("/a/allowed/link", "/etc/passwd");
      ("/etc", "/etc"); ("/etc/passwd", "/etc/passwd");
      ("/a/allowed-evil", "/a/allowed-evil");
      ("/a/allowed-evil/secret", "/a/allowed-evil/secret") ]
|}.

Definition demoArgs : list string := ["/a/allowed"].

(** A stand-in for the [diff] package in closed examples: the two contents,
    one after the other. *)
Definition plainPatch (_ _ before after _ _ : string) : string :=
  "--- " +:+ before +:+ nl +:+ "+++ " +:+ after +:+ nl.

Definition indentedBuffer : string := "  foo" +:+ nl +:+ "  bar" +:+ nl.

Definition indentedEdit : Edit :=
  {| oldText := "foo" +:+ nl +:+ "bar"; newText := "baz" +:+ nl +:+ "qux" |}.

Definition crlfBuffer : string := "a" +:+ crlf +:+ "b".

Definition elevenInserts : list Op :=
  map (fun text => OpInsert "/a/allowed/f.txt" 0 text)
      ["1"; "2"; "3"; "4"; "5"; "6"; "7"; "8"; "9"; "10"; "11"].

(** ** The rest of the handlers *)

(** The path a request works on. *)
Definition opPath (op : Op) : string :=
  match op with
  | OpEdit path _ _ | OpInsert path _ _ | OpUndo path | OpCreate path _ => path
  end.

(** ** The [view] tool: a file, or a range of its lines *)

(** [a.slice(start, end)] with the indices as the caller gives them: a
    negative index counts from the end, and both are clamped to the array. *)
Definition sliceRel {A} (start stop : Z) (a : list A) : list A :=
  slice (relativeStart start (length a)) (relativeStart stop (length a)) a.

(** The lines selected by [view_range = [start, stop]]. *)
Definition selectedLines (content : string) (start stop : Z) : list string :=
  let lines := splitLines content in
  let startIdx := Z.max 0 (start - 1) in
  let endIdx :=
    if (stop =? -1)%Z then Z.of_nat (length lines)
    else Z.min (Z.of_nat (length lines)) stop in
  sliceRel startIdx endIdx lines.

(** The text the [view] tool returns for a file. *)
Definition viewFile (content : string) (view_range : option (list Z)) : string :=
  match view_range with
  | Some [start; stop] => joinLines (selectedLines content start stop)
  | _ => content
  end.

(** ** [searchFiles] *)

(** [c.toLowerCase()] on a code unit below 256: the letters A-Z and the
    capital letters of Latin-1 (192-222 without the multiplication sign). *)
Definition lowerChar (c : ascii) : ascii :=
  let n := nat_of_ascii c in
  if ((65 <=? n) && (n <=? 90))
     || ((192 <=? n) && (n <=? 222) && negb (n =? 215))
  then ascii_of_nat (n + 32)
  else c.

Fixpoint toLowerCase (s : string) : string :=
  match s with
  | "" => ""
  | String c s' => String (lowerChar c) (toLowerCase s')
  end.

(** What [fs.readdir(dir, { withFileTypes: true })] yields, level by level.
    An entry that is not a directory (a file, a symlink) is a [FileEntry];
    the entries of a directory are [None] when reading it fails. *)
#[warnings="-register-all"]
Inductive Dirent :=
  | FileEntry (name : string)
  | DirEntry (name : string) (entries : option (list Dirent)).

Definition direntName (entry : Dirent) : string :=
  match entry with FileEntry name | DirEntry name _ => name end.

Section SearchFiles.

Variable env : NodeEnv.
Variable args : list string.

(** [minimatch(path, glob, { dot: true })] and [path.relative]. *)
Variable minimatch : string -> string -> bool.
Variable relative : string -> string -> string.

Variable rootPath : string.
Variable pattern : string.
Variable excludePatterns : list string.

Definition shouldExclude (fullPath : string) : bool :=
  let relativePath := relative rootPath fullPath in
  existsb (fun pattern =>
             let globPattern :=
               if includes pattern "*" then pattern
               else "**/" +:+ pattern +:+ "/**" in
             minimatch relativePath globPattern)
          excludePatterns.

Definition nameMatches (entry : Dirent) : bool :=
  includes (toLowerCase (direntName entry)) (toLowerCase pattern).

(** One turn of the loop of [search]: what it adds to [results]. An error
    in the turn, the failing [readdir] of the recursive call included, ends
    the turn and keeps what was pushed before. *)
Fixpoint searchEntry (currentPath : string) (entry : Dirent) : list string :=
  let fullPath := Path.join [currentPath; direntName entry] in
  match validatePath env args fullPath with
  | inl _ => []
  | inr _ =>
      if shouldExclude fullPath then []
      else
        (if nameMatches entry then [fullPath] else [])
        ++ match entry with
           | DirEntry _ (Some entries) => flat_map (searchEntry fullPath) entries
           | _ => []
           end
  end.

(** [searchFiles(rootPath, pattern, excludePatterns)], given what reading
    [rootPath] yields. *)
Definition searchFiles (rootEntries : option (list Dirent)) : Result (list string) :=
  match rootEntries with
  | None => inl (FsFault rootPath)
  | Some entries => inr (flat_map (searchEntry rootPath) entries)
  end.

End SearchFiles.

(** ** [runRipgrep]: the argument list *)

Definition ripgrepArgs (query : string) (isRegex matchCase wholeWord : bool)
    (includePatterns excludePatterns : list string) (target : string)
  : list string :=
  List.filter (fun a => negb (isEmpty a))          (* .filter(Boolean) *)
    ([ "--json"; "--line-number"; "--column";
       if matchCase then "" else "--ignore-case";
       if wholeWord then "--word-regexp" else "";
       if isRegex then "" else "--fixed-strings" ]
     ++ flat_map (fun p => ["-g"; p]) includePatterns
     ++ flat_map (fun p => ["-g"; "!" +:+ p]) excludePatterns
     ++ [ "--"; query; target ]).

(** The entries the walk of [searchFiles] reaches, with their full paths:
    an entry of the directory being read whose path [validatePath] accepts
    and no exclude pattern matches, and the entries reached in the same way
    inside such an entry when it is a readable directory. *)
Inductive Reached (env : NodeEnv) (args : list string)
    (minimatch : string -> string -> bool) (relative : string -> string -> string)
    (rootPath : string) (excludePatterns : list string)
  : string -> list Dirent -> string -> Dirent -> Prop :=
  | ReachedHere currentPath entries entry :
      In entry entries ->
      isOk (validatePath env args (Path.join [currentPath; direntName entry])) = true ->
      shouldExclude minimatch relative rootPath excludePatterns
        (Path.join [currentPath; direntName entry]) = false ->
      Reached env args minimatch relative rootPath excludePatterns
        currentPath entries (Path.join [currentPath; direntName entry]) entry
  | ReachedBelow currentPath entries name below fullPath entry :
      In (DirEntry name (Some below)) entries ->
      isOk (validatePath env args (Path.join [currentPath; name])) = true ->
      shouldExclude minimatch relative rootPath excludePatterns
        (Path.join [currentPath; name]) = false ->
      Reached env args minimatch relative rootPath excludePatterns
        (Path.join [currentPath; name]) below fullPath entry ->
      Reached env args minimatch relative rootPath excludePatterns
        currentPath entries fullPath entry.

(** ** The handlers of the editing tools *)

(** The arguments of a tool call. A field is [None] when the request does
    not have it; the schemas leave fields they do not name aside. *)
Record ToolArgs := {
  arg_command : option string;
  arg_path : option string;
  arg_old_str : option string;
  arg_new_str : option string;
  arg_insert_line : option Z;
  arg_content : option string;
}.

(** The errors that reach the [catch] of the request handler. *)
Inductive ToolError :=
  | InvalidArguments (tool : string)  (* "Invalid arguments for ..." *)
  | RequiresOldAndNew   (* "str_replace command requires old_str and new_str" *)
  | RequiresLineAndNew  (* "insert command requires insert_line and new_str" *)
  | Thrown (e : Error).

(** [z.enum(['str_replace', 'insert', 'undo_edit'])] *)
Inductive Command := CmdStrReplace | CmdInsert | CmdUndoEdit.

Definition parseCommand (s : string) : option Command :=
  if String.eqb s "str_replace" then Some CmdStrReplace
  else if String.eqb s "insert" then Some CmdInsert
  else if String.eqb s "undo_edit" then Some CmdUndoEdit
  else None.

(** The tools modelled here, by the [case] labels of the handler. *)
Inductive Tool :=
  | ToolStrReplaceEditor
  | ToolStrReplaceBasedEditTool
  | ToolStrReplace
  | ToolInsert
  | ToolCreate.

Definition toolName (tool : Tool) : string :=
  match tool with
  | ToolStrReplaceEditor => "str_replace_editor"
  | ToolStrReplaceBasedEditTool => "str_replace_based_edit_tool"
  | ToolStrReplace => "str_replace"
  | ToolInsert => "insert"
  | ToolCreate => "create"
  end.

Definition Handler (A : Type) : Type := State -> (ToolError + A) * State.

(** The [isError] flag of the reply. *)
Definition isError {A} (r : ToolError + A) : bool :=
  match r with inl _ => true | inr _ => false end.

Definition failWith {A} (e : ToolError) : Handler A := fun st => (inl e, st).

Definition run {A} (m : M A) : Handler A :=
  fun st =>
    match m st with
    | (inr a, st') => (inr a, st')
    | (inl e, st') => (inl (Thrown e), st')
    end.

Section Handlers.

Variable env : NodeEnv.
Variable args : list string.
Variable patch : string -> string -> string -> string -> string -> string -> string.

(** [const validPath = await validatePath(path)], then the rest. *)
Definition withValidPath {A} (path : string) (k : string -> Handler A)
  : Handler A :=
  fun st =>
    match validatePath env args path with
    | inl e => (inl (Thrown e), st)
    | inr validPath => k validPath st
    end.

(** The simple replacement: [StrReplaceArgsSchema], then one edit. *)
Definition strReplace (name : string) (a : ToolArgs) : Handler string :=
  match arg_path a, arg_old_str a, arg_new_str a with
  | Some path, Some old_str, Some new_str =>
      withValidPath path (fun validPath =>
        run (applyFileEdits patch validPath
               [ {| oldText := old_str; newText := new_str |} ] false))
  | _, _, _ => failWith (InvalidArguments name)
  end.

Definition callTool (tool : Tool) (a : ToolArgs) : Handler string :=
  match tool with
  | ToolStrReplaceEditor =>
      match arg_path a, arg_command a ≫= parseCommand with
      | Some path, Some command =>
          withValidPath path (fun validPath =>
            match command with
            | CmdStrReplace =>
                match arg_old_str a, arg_new_str a with
                | Some old_str, Some new_str =>
                    if isEmpty old_str || isEmpty new_str
                    then failWith RequiresOldAndNew
                    else run (applyFileEdits patch validPath
                                [ {| oldText := old_str; newText := new_str |} ]
                                false)
                | _, _ => failWith RequiresOldAndNew
                end
            | CmdInsert =>
                match arg_insert_line a, arg_new_str a with
                | Some insert_line, Some new_str =>
                    if isEmpty new_str then failWith RequiresLineAndNew
                    else run (insertAtLine patch validPath insert_line new_str)
                | _, _ => failWith RequiresLineAndNew
                end
            | CmdUndoEdit => run (undoEdit patch validPath path)
            end)
      | _, _ => strReplace (toolName tool) a   (* "Try parsing as simple str_replace" *)
      end
  | ToolStrReplaceBasedEditTool | ToolStrReplace => strReplace (toolName tool) a
  | ToolInsert =>
      match arg_path a, arg_insert_line a, arg_new_str a with
      | Some path, Some insert_line, Some new_str =>
          withValidPath path (fun validPath =>
            run (insertAtLine patch validPath insert_line new_str))
      | _, _, _ => failWith (InvalidArguments (toolName tool))
      end
  | ToolCreate =>
      match arg_path a, arg_content a with
      | Some path, Some content =>
          withValidPath path (fun validPath =>
            run (exec writeFile validPath content ;;
                 ret ("Successfully created " +:+ path)))
      | _, _ => failWith (InvalidArguments (toolName tool))
      end
  end.

End Handlers.

(** ** [getFileStats]: the permission digits *)

(** [n.toString(8)] for a non-negative integer. *)
Definition toOctalString (n : N) : string :=
  match n with
  | N0 => "0"
  | Npos p => OctalString.Raw.of_pos p ""
  end.

(** [s.slice(start)] with the index as the caller gives it. *)
Definition sliceFrom (start : Z) (s : string) : string :=
  dropS (relativeStart start (String.length s)) s.

(** [stats.mode.toString(8).slice(-3)] *)
Definition permissions (mode : N) : string := sliceFrom (-3) (toOctalString mode).

(** A text of octal digits. *)
Definition isOctal (s : string) : Prop :=
  Forall (fun c => exists d, OctalString.ascii_to_digit c = Some d /\ (d < 8)%N)
         (String.list_ascii_of_string s).

(** A file system in which every path exists and is its own real path. *)
Definition plainEnv : NodeEnv :=
  {| homedir := "/home/u"; cwd := "/a/allowed"; realpath := Some |}.

Definition demoTree : list Dirent :=
  [ FileEntry "README.md";
    DirEntry "src" (Some [FileEntry "Main.ts"; FileEntry "util.ts"]);
    DirEntry "locked" None ].

(** ** Files as bytes

    [fs.readFile(path, 'utf-8')] decodes the bytes of a file into a text
    and [fs.writeFile(path, text, 'utf-8')] encodes a text into bytes. In
    this part a text is a sequence of 16-bit code units and a file is a
    sequence of bytes, both given by their numbers. *)

Module Utf8.

Definition REPLACEMENT : N := 65533.   (* U+FFFD *)

(** The UTF-16 code units of a code point. *)
Definition codeUnits (cp : N) : list N :=
  if (cp <? 65536)%N then [cp]
  else
    let v := (cp - 65536)%N in
    [(55296 + N.shiftr v 10)%N; (56320 + N.land v 1023)%N].

(** The decoder between two bytes: the continuation bytes still needed,
    the code point so far, and the range allowed for the next byte. *)
Record DecoderState := {
  needed : nat;
  codePoint : N;
  lower : N;
  upper : N;
}.

Definition initial : DecoderState :=
  {| needed := 0; codePoint := 0; lower := 128; upper := 191 |}.

(** A byte read when no sequence is open. *)
Definition lead (b : N) : list N * DecoderState :=
  if (b <? 128)%N then ([b], initial)
  else if (194 <=? b)%N && (b <=? 223)%N then
    ([], {| needed := 1; codePoint := N.land b 31; lower := 128; upper := 191 |})
  else if (224 <=? b)%N && (b <=? 239)%N then
    ([], {| needed := 2; codePoint := N.land b 15;
            lower := if (b =? 224)%N then 160%N else 128%N;
            upper := if (b =? 237)%N then 159%N else 191%N |})
  else if (240 <=? b)%N && (b <=? 244)%N then
    ([], {| needed := 3; codePoint := N.land b 7;
            lower := if (b =? 240)%N then 144%N else 128%N;
            upper := if (b =? 244)%N then 143%N else 191%N |})
  else ([REPLACEMENT], initial).

(** Decoding with replacement: a byte that cannot continue the open
    sequence closes it with U+FFFD and is read again as a first byte; an
    open sequence at the end gives U+FFFD. *)
Fixpoint decodeFrom (st : DecoderState) (bytes : list N) : list N :=
  match bytes with
  | [] => match needed st with 0 => [] | S _ => [REPLACEMENT] end
  | b :: rest =>
      match needed st with
      | 0 => let '(out, st') := lead b in out ++ decodeFrom st' rest
      | S n =>
          if (lower st <=? b)%N && (b <=? upper st)%N then
            let cp := N.lor (N.shiftl (codePoint st) 6) (N.land b 63) in
            match n with
            | 0 => codeUnits cp ++ decodeFrom initial rest
            | S _ =>
                decodeFrom {| needed := n; codePoint := cp;
                              lower := 128; upper := 191 |} rest
            end
          else
            let '(out, st') := lead b in
            REPLACEMENT :: out ++ decodeFrom st' rest
      end
  end.

(** [buffer.toString('utf-8')] *)
Definition decode (bytes : list N) : list N := decodeFrom initial bytes.

Definition isHighSurrogate (u : N) : bool := (55296 <=? u)%N && (u <=? 56319)%N.
Definition isLowSurrogate (u : N) : bool := (56320 <=? u)%N && (u <=? 57343)%N.

Definition encodeCodePoint (cp : N) : list N :=
  if (cp <? 128)%N then [cp]
  else if (cp <? 2048)%N then
    [(192 + N.shiftr cp 6)%N; (128 + N.land cp 63)%N]
  else if (cp <? 65536)%N then
    [(224 + N.shiftr cp 12)%N; (128 + N.land (N.shiftr cp 6) 63)%N;
     (128 + N.land cp 63)%N]
  else
    [(240 + N.shiftr cp 18)%N; (128 + N.land (N.shiftr cp 12) 63)%N;
     (128 + N.land (N.shiftr cp 6) 63)%N; (128 + N.land cp 63)%N].

(** [Buffer.from(text, 'utf-8')]: a surrogate pair is one code point, a
    surrogate without its partner is written as U+FFFD. *)
Fixpoint encode (text : list N) : list N :=
  match text with
  | [] => []
  | u :: rest =>
      if isHighSurrogate u then
        match rest with
        | v :: rest' =>
            if isLowSurrogate v then
              encodeCodePoint (65536 + N.shiftl (u - 55296) 10 + (v - 56320))
                ++ encode rest'
            else encodeCodePoint REPLACEMENT ++ encode rest
        | [] => encodeCodePoint REPLACEMENT
        end
      else if isLowSurrogate u then encodeCodePoint REPLACEMENT ++ encode rest
      else encodeCodePoint u ++ encode rest
  end.

End Utf8.

(** The editor over texts of 16-bit code units and files of bytes: the
    same functions as above, with every code unit in the alphabet, the
    UTF-8 layer between text and file, and a write that can be refused. *)

Module Wide.

Definition text : Type := list N.

(** The code units of a text written with characters below 256. *)
Definition ofString (s : string) : text :=
  (fun c => N_of_ascii c) <$> String.list_ascii_of_string s.

Definition LF : N := 10.
Definition CR : N := 13.
Definition nl : text := [LF].

(** WhiteSpace and LineTerminator of ECMAScript. *)
Definition isWhiteSpace (c : N) : bool :=
  existsb (N.eqb c)
    [9; 10; 11; 12; 13; 32; 160; 5760; 8232; 8233; 8239; 8287; 12288; 65279]%N
  || ((8192 <=? c)%N && (c <=? 8202)%N).

Definition isEmpty (s : text) : bool :=
  match s with [] => true | _ => false end.

Fixpoint eqb (a b : text) : bool :=
  match a, b with
  | [], [] => true
  | x :: a', y :: b' => (x =? y)%N && eqb a' b'
  | _, _ => false
  end.

Fixpoint startsWith (s d : text) : bool :=
  match d, s with
  | [], _ => true
  | x :: d', y :: s' => (x =? y)%N && startsWith s' d'
  | _ :: _, [] => false
  end.

Fixpoint indexOf (needle s : text) : option nat :=
  if startsWith s needle then Some 0
  else match s with
       | [] => None
       | _ :: s' => option_map S (indexOf needle s')
       end.

Definition includes (s needle : text) : bool :=
  match indexOf needle s with Some _ => true | None => false end.

(** GetSubstitution for a string pattern: "$$" 36 36, "$&" 36 38,
    "$`" 36 96, "$'" 36 39. *)
Fixpoint getSubstitution (matched preceding following template : text) : text :=
  match template with
  | [] => []
  | c :: rest =>
      let literal := c :: getSubstitution matched preceding following rest in
      if (c =? 36)%N then
        match rest with
        | d :: rest' =>
            let tail := getSubstitution matched preceding following rest' in
            if (d =? 36)%N then 36%N :: tail
            else if (d =? 38)%N then matched ++ tail
            else if (d =? 96)%N then preceding ++ tail
            else if (d =? 39)%N then following ++ tail
            else literal
        | [] => literal
        end
      else literal
  end.

Definition replace (s pattern replacement : text) : text :=
  match indexOf pattern s with
  | None => s
  | Some pos =>
      let preceding := take pos s in
      let following := drop (pos + length pattern) s in
      preceding ++ getSubstitution pattern preceding following replacement
        ++ following
  end.

Fixpoint replaceAllCRLF (s : text) : text :=
  match s with
  | [] => []
  | c :: rest =>
      if (c =? CR)%N then
        match rest with
        | d :: rest' =>
            if (d =? LF)%N then LF :: replaceAllCRLF rest'
            else c :: replaceAllCRLF rest
        | [] => c :: replaceAllCRLF rest
        end
      else c :: replaceAllCRLF rest
  end.

Definition normalizeLineEndings (t : text) : text := replaceAllCRLF t.

Fixpoint trimStart (s : text) : text :=
  match s with
  | c :: s' => if isWhiteSpace c then trimStart s' else s
  | [] => []
  end.

Fixpoint trimEnd (s : text) : text :=
  match s with
  | [] => []
  | c :: s' =>
      let r := trimEnd s' in
      if isWhiteSpace c && isEmpty r then [] else c :: r
  end.

Definition trim (s : text) : text := trimEnd (trimStart s).

Fixpoint leadingWhitespace (s : text) : text :=
  match s with
  | c :: s' => if isWhiteSpace c then c :: leadingWhitespace s' else []
  | [] => []
  end.

Fixpoint splitLines (s : text) : list text :=
  match s with
  | [] => [[]]
  | c :: s' =>
      if (c =? LF)%N then [] :: splitLines s'
      else match splitLines s' with
           | h :: t => (c :: h) :: t
           | [] => [[c]]
           end
  end.

Fixpoint joinLines (lines : list text) : text :=
  match lines with
  | [] => []
  | [x] => x
  | x :: rest => x ++ nl ++ joinLines rest
  end.

(** *** The edit loop *)

Record Edit := { oldText : text; newText : text }.

Fixpoint isMatch (oldLines potentialMatch : list text) : bool :=
  match oldLines, potentialMatch with
  | [], _ => true
  | oldLine :: oldLines', contentLine :: rest =>
      eqb (trim oldLine) (trim contentLine) && isMatch oldLines' rest
  | _ :: _, [] => false
  end.

Definition matchesAt (oldLines contentLines : list text) (i : nat) : bool :=
  isMatch oldLines (slice i (i + length oldLines) contentLines).

Definition findWindow (oldLines contentLines : list text) : option nat :=
  List.find (matchesAt oldLines contentLines)
            (windowStarts (length contentLines) (length oldLines)).

Definition reindent (originalIndent : text) (oldLines : list text)
    (j : nat) (line : text) : text :=
  if j =? 0 then originalIndent ++ trimStart line
  else
    let oldIndent :=
      match oldLines !! j with
      | Some oldLine => leadingWhitespace oldLine
      | None => []
      end in
    let newIndent := leadingWhitespace line in
    if negb (isEmpty oldIndent) && negb (isEmpty newIndent) then
      let relativeIndent :=
        (Z.of_nat (length newIndent) - Z.of_nat (length oldIndent))%Z in
      originalIndent
        ++ replicate (Z.to_nat (Z.max 0 relativeIndent)) 32%N
        ++ trimStart line
    else line.

Definition replaceWindow (oldLines contentLines : list text)
    (normalizedNew : text) (i : nat) : text :=
  let originalIndent :=
    match contentLines !! i with
    | Some l => leadingWhitespace l
    | None => []
    end in
  let newLines := imap (reindent originalIndent oldLines) (splitLines normalizedNew) in
  joinLines (splice i (length oldLines) newLines contentLines).

Inductive Error :=
  | NoMatchFound (oldText : text)
  | NoHistory (path : string)
  | FsFault (path : string).

Definition applyEdit (modifiedContent : text) (edit : Edit) : Error + text :=
  let normalizedOld := normalizeLineEndings (oldText edit) in
  let normalizedNew := normalizeLineEndings (newText edit) in
  if includes modifiedContent normalizedOld then
    inr (replace modifiedContent normalizedOld normalizedNew)
  else
    let oldLines := splitLines normalizedOld in
    let contentLines := splitLines modifiedContent in
    match findWindow oldLines contentLines with
    | Some i => inr (replaceWindow oldLines contentLines normalizedNew i)
    | None => inl (NoMatchFound (oldText edit))
    end.

Fixpoint applyEdits (modifiedContent : text) (edits : list Edit) : Error + text :=
  match edits with
  | [] => inr modifiedContent
  | edit :: rest =>
      match applyEdit modifiedContent edit with
      | inr modifiedContent' => applyEdits modifiedContent' rest
      | inl e => inl e
      end
  end.

Fixpoint fenceLoop (fuel numBackticks : nat) (diff : text) : nat :=
  match fuel with
  | 0 => numBackticks
  | S fuel' =>
      if includes diff (replicate numBackticks 96%N)
      then fenceLoop fuel' (S numBackticks) diff
      else numBackticks
  end.

Definition fenced (diff trailer : text) : text :=
  let fence := replicate (fenceLoop (S (length diff)) 3 diff) 96%N in
  fence ++ ofString "diff" ++ nl ++ diff ++ fence ++ nl ++ nl ++ trailer.

(** *** State and effects

    [refused] holds the paths at which [fs.writeFile] rejects, as it does
    for a read-only file: such a write throws and the file keeps its
    bytes. *)

Record State := {
  disk : gmap string (list N);             (* the bytes of each file *)
  refused : gset string;                   (* where fs.writeFile rejects *)
  editHistory : gmap string (list text);   (* new Map<string, string[]>() *)
}.

Definition pushBounded (history : list text) (content : text) : list text :=
  let history := history ++ [content] in
  if MAX_HISTORY_SIZE <? length history then tail history else history.

Definition saveToHistory (filePath : string) (content : text) (st : State) : State :=
  {| disk := disk st; refused := refused st;
     editHistory :=
       <[filePath := pushBounded (default [] (editHistory st !! filePath)) content]>
         (editHistory st) |}.

(** [fs.readFile(path, 'utf-8')] *)
Definition readFile (path : string) (st : State) : Error + text :=
  match disk st !! path with
  | Some bytes => inr (Utf8.decode bytes)
  | None => inl (FsFault path)
  end.

(** [fs.writeFile(path, content, 'utf-8')] *)
Definition writeFile (path : string) (content : text) (st : State)
  : Error + State :=
  if decide (path ∈ refused st) then inl (FsFault path)
  else inr {| disk := <[path := Utf8.encode content]> (disk st);
              refused := refused st; editHistory := editHistory st |}.

Section Editor.

Variable createTwoFilesPatch : string -> string -> text -> text -> string -> string -> text.

Definition createUnifiedDiff (originalContent newContent : text) (filepath : string)
  : text :=
  createTwoFilesPatch filepath filepath
    (normalizeLineEndings originalContent) (normalizeLineEndings newContent)
    "original" "modified".

Definition applyFileEdits (filePath : string) (edits : list Edit) (dryRun : bool)
    (st : State) : (Error + text) * State :=
  match readFile filePath st with
  | inl e => (inl e, st)
  | inr raw =>
      let content := normalizeLineEndings raw in
      let st1 := if dryRun then st else saveToHistory filePath content st in
      match applyEdits content edits with
      | inl e => (inl e, st1)
      | inr modifiedContent =>
          let diff := createUnifiedDiff content modifiedContent filePath in
          let formattedDiff := fenced diff [] in
          if dryRun then (inr formattedDiff, st1)
          else match writeFile filePath modifiedContent st1 with
               | inl e => (inl e, st1)
               | inr st2 => (inr formattedDiff, st2)
               end
      end
  end.

Definition insertLines (content : text) (insertLine : Z) (newText : text)
  : list text :=
  let lines := splitLines content in
  if (insertLine =? 0)%Z then newText :: lines
  else
    let actualLine := Z.min insertLine (Z.of_nat (length lines)) in
    spliceAt actualLine 0 [newText] lines.

Definition insertAtLine (filePath : string) (insertLine : Z) (newText : text)
    (st : State) : (Error + text) * State :=
  match readFile filePath st with
  | inl e => (inl e, st)
  | inr content =>
      let st1 := saveToHistory filePath content st in
      let modifiedContent := joinLines (insertLines content insertLine newText) in
      match writeFile filePath modifiedContent st1 with
      | inl e => (inl e, st1)
      | inr st2 =>
          (inr (fenced (createUnifiedDiff content modifiedContent filePath) []), st2)
      end
  end.

Definition undoEdit (validPath requestedPath : string) (st : State)
  : (Error + text) * State :=
  match editHistory st !! validPath with
  | None => (inl (NoHistory requestedPath), st)
  | Some history =>
      match last history with
      | None => (inl (NoHistory requestedPath), st)
      | Some previousContent =>
          let st1 := {| disk := disk st; refused := refused st;
                        editHistory := <[validPath := removelast history]>
                                         (editHistory st) |} in
          match readFile validPath st1 with
          | inl e => (inl e, st1)
          | inr currentContent =>
              match writeFile validPath previousContent st1 with
              | inl e => (inl e, st1)
              | inr st2 =>
                  (inr (fenced (createUnifiedDiff currentContent previousContent
                                  validPath)
                               (ofString "Reverted to previous version.")),
                   st2)
              end
          end
      end
  end.

End Editor.

(** "The text contains "\r\n"". *)
Fixpoint hasCRLF (t : text) : bool :=
  match t with
  | [] => false
  | c :: rest =>
      match rest with
      | d :: _ => ((c =? CR)%N && (d =? LF)%N) || hasCRLF rest
      | [] => false
      end
  end.

End Wide.

(** A stand-in for the [diff] package over wide texts. *)
Definition plainPatchWide (_ _ : string) (before after : Wide.text) (_ _ : string)
  : Wide.text :=
  before ++ Wide.nl ++ after.

(** A file that is not valid UTF-8: the byte 255, then "foo\n". *)
Definition invalidUtf8File : list N := [255; 102; 111; 111; 10]%N.

Definition fooToBar : Wide.Edit :=
  {| Wide.oldText := Wide.ofString "foo"; Wide.newText := Wide.ofString "bar" |}.

Definition diskWith (path : string) (bytes : list N) : Wide.State :=
  {| Wide.disk := {[ path := bytes ]}; Wide.refused := ∅; Wide.editHistory := ∅ |}.

(** * Properties *)

(** ** Strings *)

Section StringFacts.

Lemma app_nil_s (s : string) : "" +:+ s = s.
Proof. reflexivity. Qed.

Lemma app_cons_s (c : ascii) (a b : string) :
  String c a +:+ b = String c (a +:+ b).
Proof. reflexivity. Qed.

Lemma app_empty_r (s : string) : s +:+ "" = s.
Proof.
  induction s as [|c s IH]; [done|]. by rewrite app_cons_s, IH.
Qed.

Lemma app_assoc_s (a b c : string) : (a +:+ b) +:+ c = a +:+ b +:+ c.
Proof.
  induction a as [|x a IH]; [done|]. by rewrite !app_cons_s, IH.
Qed.

Lemma length_app_s (a b : string) :
  String.length (a +:+ b) = String.length a + String.length b.
Proof.
  induction a as [|x a IH]; [done|]. rewrite app_cons_s. simpl. by rewrite IH.
Qed.

Lemma takeS_dropS (n : nat) (s : string) : takeS n s +:+ dropS n s = s.
Proof.
  revert s; induction n as [|n IH]; intros [|c s]; simpl; try done.
  by rewrite app_cons_s, IH.
Qed.

Lemma takeS_app (a b : string) : takeS (String.length a) (a +:+ b) = a.
Proof.
  induction a as [|x a IH]; [by destruct b|].
  rewrite app_cons_s. simpl. by rewrite IH.
Qed.

Lemma dropS_app (a b : string) : dropS (String.length a) (a +:+ b) = b.
Proof.
  induction a as [|x a IH]; [by destruct b|]. by rewrite app_cons_s.
Qed.

Lemma dropS_add (n m : nat) (s : string) : dropS (n + m) s = dropS m (dropS n s).
Proof.
  revert s; induction n as [|n IH]; intros s; simpl; [done|].
  destruct s as [|c s]; [by destruct m | apply IH].
Qed.

Lemma length_takeS (n : nat) (s : string) :
  n <= String.length s -> String.length (takeS n s) = n.
Proof.
  revert s; induction n as [|n IH]; intros [|c s]; simpl; intros H; try lia.
  by rewrite IH by lia.
Qed.

(** [String.prefix] decides "starts with". *)
Lemma prefix_app (a b : string) : String.prefix a (a +:+ b) = true.
Proof.
  induction a as [|x a IH]; [by destruct b|].
  rewrite app_cons_s. simpl. by destruct (ascii_dec x x).
Qed.

Lemma prefix_true (a s : string) :
  String.prefix a s = true -> s = a +:+ dropS (String.length a) s.
Proof.
  revert s; induction a as [|x a IH]; intros s H.
  - by destruct s.
  - destruct s as [|y s]; simpl in H; [done|].
    destruct (ascii_dec x y) as [->|]; [|done].
    rewrite app_cons_s. simpl. f_equal. by apply IH.
Qed.

Lemma prefix_length (a s : string) :
  String.prefix a s = true -> String.length a <= String.length s.
Proof.
  intros H. rewrite (prefix_true _ _ H), length_app_s. lia.
Qed.

Lemma indexOf_eq (needle s : string) :
  indexOf needle s =
    if String.prefix needle s then Some 0
    else match s with
         | "" => None
         | String _ s' => option_map S (indexOf needle s')
         end.
Proof. by destruct s. Qed.

(** [indexOf] returns the first position at which the needle starts. *)
Lemma indexOf_Some (needle s : string) (i : nat) :
  indexOf needle s = Some i ->
  String.prefix needle (dropS i s) = true /\
  i + String.length needle <= String.length s /\
  forall k, k < i -> String.prefix needle (dropS k s) = false.
Proof.
  revert i; induction s as [|c s IH]; intros i; rewrite indexOf_eq;
    destruct (String.prefix needle _) eqn:E.
  - intros [= <-]. split_and!; [done| |lia].
    apply prefix_length in E. simpl in *. lia.
  - done.
  - intros [= <-]. split_and!; [done| |lia].
    apply prefix_length in E. simpl in *. lia.
  - destruct (indexOf needle s) as [j|] eqn:Ej; [|done].
    intros [= <-]. destruct (IH j eq_refl) as (H1 & H2 & H3).
    split_and!; [done|simpl; lia|].
    intros [|k] Hk; [done | apply H3; lia].
Qed.

Lemma indexOf_None (needle s : string) (k : nat) :
  indexOf needle s = None -> String.prefix needle (dropS k s) = false.
Proof.
  revert k; induction s as [|c s IH]; intros k; rewrite indexOf_eq;
    destruct (String.prefix needle _) eqn:E; try done.
  - by destruct k.
  - destruct (indexOf needle s) eqn:Ej; [done|]. intros _.
    destruct k as [|k]; [done | by apply IH].
Qed.

(** The shape of a string around the position [indexOf] returns. *)
Lemma indexOf_split (needle s : string) (i : nat) :
  indexOf needle s = Some i ->
  s = takeS i s +:+ needle +:+ dropS (i + String.length needle) s /\
  String.length (takeS i s) = i.
Proof.
  intros H. destruct (indexOf_Some _ _ _ H) as (Hp & Hl & _).
  split; [|apply length_takeS; lia].
  rewrite dropS_add, <- (prefix_true _ _ Hp). by rewrite takeS_dropS.
Qed.

End StringFacts.

Lemma includes_occursIn (s needle : string) :
  includes s needle = true <-> occursIn needle s.
Proof.
  unfold includes, occursIn. split.
  - destruct (indexOf needle s) as [i|] eqn:E; [|done]. intros _.
    destruct (indexOf_split _ _ _ E) as [H _]. eauto.
  - intros (pre & post & ->).
    destruct (indexOf needle (pre +:+ needle +:+ post)) as [i|] eqn:E; [done|].
    apply (indexOf_None _ _ (String.length pre)) in E.
    by rewrite dropS_app, prefix_app in E.
Qed.

(** ** The fence of the diff *)

Lemma includes_length (s needle : string) :
  includes s needle = true -> String.length needle <= String.length s.
Proof.
  intros H. apply includes_occursIn in H as (pre & post & ->).
  rewrite !length_app_s. lia.
Qed.

Lemma length_repeatChar (c : ascii) (n : nat) :
  String.length (repeatChar c n) = n.
Proof. induction n as [|n IH]; simpl; [done | by rewrite IH]. Qed.

(** With fuel beyond the length of the diff the loop leaves by its test. *)
Lemma fenceLoop_exits (fuel numBackticks : nat) (diff : string) :
  String.length diff < fuel + numBackticks ->
  numBackticks <= fenceLoop fuel numBackticks diff /\
  includes diff (repeatChar "`" (fenceLoop fuel numBackticks diff)) = false.
Proof.
  revert numBackticks; induction fuel as [|fuel IH]; intros n Hlen; simpl.
  - split; [done|].
    destruct (includes diff (repeatChar "`" n)) eqn:E; [|done].
    apply includes_length in E. rewrite length_repeatChar in E. lia.
  - destruct (includes diff (repeatChar "`" n)) eqn:E; [|done].
    destruct (IH (S n)) as [Hge Hout]; [lia|]. split; [lia | done].
Qed.

(** The fence has at least three backticks and does not occur in the diff. *)
Lemma numBackticksFor_spec (diff : string) :
  3 <= numBackticksFor diff /\
  includes diff (repeatChar "`" (numBackticksFor diff)) = false.
Proof. apply fenceLoop_exits. lia. Qed.

(** ** PathGuard *)

Section PathGuardFacts.

Variable env : NodeEnv.
Variable args : list string.

(** The only errors that leave [validatePath]. *)
Lemma validatePath_errors (p : string) (e : Error) :
  validatePath env args p = inl e ->
  e = AccessDenied PathOutside \/
  e = ParentNotFound (Path.dirname (absoluteOf env p)).
Proof.
  unfold validatePath.
  destruct (negb _); [intros [= <-]; by left|].
  destruct (realPathCheck _ _ _); [|done].
  destruct (parentCheck _ _ _ _); [|done].
  intros [= <-]. by right.
Qed.

(** The error thrown for a symlink that leaves the roots never reaches the
    caller: the [catch] of the same [try] takes it. *)
Lemma validatePath_never_SymlinkOutside (p : string) :
  validatePath env args p <> inl (AccessDenied SymlinkOutside).
Proof.
  intros H. by destruct (validatePath_errors _ _ H).
Qed.

(** When the path passes the first check, its real path is outside the
    roots and its parent directory is inside, the path itself is returned. *)
Lemma validatePath_symlink_swallowed (p realPath realParent : string) :
  someStartsWith env args (normalizePath (absoluteOf env p)) = true ->
  realpath env (absoluteOf env p) = Some realPath ->
  someStartsWith env args (normalizePath realPath) = false ->
  realpath env (Path.dirname (absoluteOf env p)) = Some realParent ->
  someStartsWith env args (normalizePath realParent) = true ->
  validatePath env args p = inr (absoluteOf env p).
Proof.
  intros H1 H2 H3 H4 H5.
  unfold validatePath, realPathCheck, parentCheck.
  by rewrite H1, H2, H3, H4, H5.
Qed.

(** When [validatePath] returns a path. *)
Lemma validatePath_ok_iff (p : string) :
  isOk (validatePath env args p) = true <->
  someStartsWith env args (normalizePath (absoluteOf env p)) = true /\
  ((exists realPath, realpath env (absoluteOf env p) = Some realPath /\
      someStartsWith env args (normalizePath realPath) = true) \/
   (exists realParent,
      realpath env (Path.dirname (absoluteOf env p)) = Some realParent /\
      someStartsWith env args (normalizePath realParent) = true)).
Proof.
  unfold validatePath, realPathCheck, parentCheck.
  destruct (someStartsWith env args (normalizePath (absoluteOf env p))); simpl;
    [|split; [done | by intros [? _]]].
  destruct (realpath env (absoluteOf env p)) as [rp|];
    [destruct (someStartsWith env args (normalizePath rp)) eqn:Erp|]; simpl;
    (destruct (realpath env (Path.dirname (absoluteOf env p))) as [pp|];
     [destruct (someStartsWith env args (normalizePath pp)) eqn:Epp|]); simpl;
    (split;
     [ intros ?; first [done | split; [done|]; solve [left; eauto | right; eauto]]
     | intros [_ [(? & ? & ?)|(? & ? & ?)]]; congruence ]).
Qed.

End PathGuardFacts.

(** C1 (the code differs): [link] is a symlink inside the allowed root
    [/a/allowed] whose real path [/etc/passwd] is outside every root; the
    "Access denied" raised for it is caught again, the parent directory
    passes, and [validatePath] returns the path of the symlink. *)
Theorem validatePath_returns_escaping_symlink :
  allowedDirectories demoEnv demoArgs = ["/a/allowed"] /\
  realpath demoEnv "/a/allowed/link" = Some "/etc/passwd" /\
  someStartsWith demoEnv demoArgs (normalizePath "/etc/passwd") = false /\
  realPathCheck demoEnv demoArgs "/a/allowed/link"
    = inl (AccessDenied SymlinkOutside) /\
  validatePath demoEnv demoArgs "/a/allowed/link" = inr "/a/allowed/link".
Proof. repeat split; reflexivity. Qed.

(** C2 (the code differs): the roots are compared with [startsWith], so with
    the root [/a/allowed] the sibling directory [/a/allowed-evil] and the
    files in it are accepted, although no root is a prefix of them that ends
    at a segment boundary. *)
Theorem validatePath_accepts_sibling_of_root :
  allowedDirectories demoEnv demoArgs = ["/a/allowed"] /\
  validatePath demoEnv demoArgs "/a/allowed-evil" = inr "/a/allowed-evil" /\
  validatePath demoEnv demoArgs "/a/allowed-evil/secret"
    = inr "/a/allowed-evil/secret" /\
  existsb (fun root => withinRoot root "/a/allowed-evil")
          (allowedDirectories demoEnv demoArgs) = false /\
  existsb (fun root => withinRoot root "/a/allowed-evil/secret")
          (allowedDirectories demoEnv demoArgs) = false.
Proof. repeat split; reflexivity. Qed.

(** ** PatchEngine: the exact pass *)

Lemma includes_cons_dollar (c : ascii) (t : string) :
  includes (String c t) "$" = false ->
  Ascii.eqb c "$" = false /\ includes t "$" = false.
Proof.
  unfold includes.
  destruct (indexOf "$" (String c t)) eqn:E; [done|]. intros _. split.
  - apply Ascii.eqb_neq. intros ->.
    apply (indexOf_None _ _ 0) in E.
    change (dropS 0 (String "$" t)) with ("$" +:+ t) in E.
    by rewrite prefix_app in E.
  - destruct (indexOf "$" t) as [i|] eqn:Et; [|done].
    apply indexOf_Some in Et as [Hp _].
    apply (indexOf_None _ _ (S i)) in E. simpl in E. congruence.
Qed.

(** A template without [$] stands for itself. *)
Lemma getSubstitution_no_dollar (matched preceding following template : string) :
  includes template "$" = false ->
  getSubstitution matched preceding following template = template.
Proof.
  induction template as [|c t IH]; [done|]. intros H.
  destruct (includes_cons_dollar _ _ H) as [Hc Ht].
  simpl. rewrite Hc. by rewrite IH.
Qed.

Lemma replace_no_dollar (s pattern replacement : string) :
  includes replacement "$" = false ->
  replace s pattern replacement = replaceLiteral s pattern replacement.
Proof.
  intros H. unfold replace, replaceLiteral.
  destruct (indexOf pattern s); [|done].
  by rewrite getSubstitution_no_dollar.
Qed.

(** What [replace] does at the first occurrence. *)
Lemma replace_first (s pattern replacement : string) :
  occursIn pattern s ->
  exists pre post,
    s = pre +:+ pattern +:+ post /\
    indexOf pattern s = Some (String.length pre) /\
    (forall k, k < String.length pre ->
               String.prefix pattern (dropS k s) = false) /\
    replace s pattern replacement
      = pre +:+ getSubstitution pattern pre post replacement +:+ post.
Proof.
  intros Hocc. apply includes_occursIn in Hocc. unfold includes in Hocc.
  unfold replace.
  destruct (indexOf pattern s) as [i|] eqn:E; [|done].
  destruct (indexOf_split _ _ _ E) as [Hs Hlen].
  destruct (indexOf_Some _ _ _ E) as (_ & _ & Hfirst).
  exists (takeS i s), (dropS (i + String.length pattern) s).
  rewrite Hlen. by split_and!.
Qed.

(** C4: when the normalized [oldText] occurs in the buffer, the edit is
    handled by the exact pass, which rewrites the first occurrence and
    leaves the text before and after it as it was; the line windows are not
    consulted, also when a whitespace-insensitive window matches at another
    place (second part: the window at line 0 matches, the occurrence at
    line 2 is replaced). *)
Theorem applyEdit_exact_pass_first (buffer : string) (edit : Edit) :
  let normalizedOld := normalizeLineEndings (oldText edit) in
  let normalizedNew := normalizeLineEndings (newText edit) in
  occursIn normalizedOld buffer ->
  (exists pre post,
     buffer = pre +:+ normalizedOld +:+ post /\
     (forall k, k < String.length pre ->
                String.prefix normalizedOld (dropS k buffer) = false) /\
     applyEdit buffer edit
       = inr (ExactPass,
              pre +:+ getSubstitution normalizedOld pre post normalizedNew
                  +:+ post)) /\
  (let twice := "  x" +:+ nl +:+ "  y" +:+ nl +:+ "x" +:+ nl +:+ "y" in
   let e := {| oldText := "x" +:+ nl +:+ "y"; newText := "X" |} in
   findWindow (splitLines (oldText e)) (splitLines twice) = Some 0 /\
   applyEdit twice e = inr (ExactPass, "  x" +:+ nl +:+ "  y" +:+ nl +:+ "X")).
Proof.
  intros normalizedOld normalizedNew Hocc. split; [|split; reflexivity].
  destruct (replace_first buffer normalizedOld normalizedNew Hocc)
    as (pre & post & Hs & _ & Hfirst & Hrep).
  exists pre, post. split_and!; [done..|].
  unfold applyEdit. fold normalizedOld normalizedNew.
  apply includes_occursIn in Hocc. by rewrite Hocc, Hrep.
Qed.

Lemma applyEdit_exact_pass_first_witness :
  occursIn (normalizeLineEndings "b") "abcb" /\
  exists pre post,
    "abcb" = pre +:+ "b" +:+ post /\
    applyEdit "abcb" {| oldText := "b"; newText := "B" |}
      = inr (ExactPass, pre +:+ getSubstitution "b" pre post "B" +:+ post).
Proof.
  assert (Hocc : occursIn (normalizeLineEndings "b") "abcb")
    by (exists "a", "cb"; reflexivity).
  split; [exact Hocc|].
  destruct (applyEdit_exact_pass_first "abcb"
              {| oldText := "b"; newText := "B" |} Hocc)
    as [(pre & post & H1 & _ & H3) _].
  exists pre, post. split; [exact H1 | exact H3].
Defined.

(** C10: the exact pass hands [newText] to [String.prototype.replace] as a
    replacement template. There is an input whose [oldText] occurs in the
    buffer and whose result is not the buffer with the first occurrence
    replaced by the literal [newText] (here [$&] is expanded to the matched
    text); a [newText] without [$] is inserted as it is. *)
Theorem applyEdit_exact_pass_expands_patterns :
  (exists buffer edit result,
     occursIn (normalizeLineEndings (oldText edit)) buffer /\
     includes (normalizeLineEndings (newText edit)) "$&" = true /\
     applyEdit buffer edit = inr (ExactPass, result) /\
     result <> replaceLiteral buffer (normalizeLineEndings (oldText edit))
                 (normalizeLineEndings (newText edit))) /\
  (forall buffer edit,
     occursIn (normalizeLineEndings (oldText edit)) buffer ->
     includes (normalizeLineEndings (newText edit)) "$" = false ->
     applyEdit buffer edit
       = inr (ExactPass,
              replaceLiteral buffer (normalizeLineEndings (oldText edit))
                (normalizeLineEndings (newText edit)))).
Proof.
  split.
  - exists "abc", {| oldText := "b"; newText := "[$&]" |}, "a[b]c".
    split_and!; [by exists "a", "c" | reflexivity | reflexivity | discriminate].
  - intros buffer edit Hocc Hnew. unfold applyEdit.
    apply includes_occursIn in Hocc. rewrite Hocc.
    by rewrite replace_no_dollar.
Qed.

Lemma applyEdit_exact_pass_expands_patterns_witness :
  occursIn (normalizeLineEndings "b") "abc" /\
  includes (normalizeLineEndings "[B]") "$" = false /\
  applyEdit "abc" {| oldText := "b"; newText := "[B]" |}
    = inr (ExactPass, replaceLiteral "abc" "b" "[B]").
Proof.
  assert (Hocc : occursIn (normalizeLineEndings "b") "abc")
    by (exists "a", "c"; reflexivity).
  split_and!; [exact Hocc | reflexivity |].
  exact (proj2 applyEdit_exact_pass_expands_patterns "abc"
           {| oldText := "b"; newText := "[B]" |} Hocc eq_refl).
Defined.

(** ** PatchEngine: the fuzzy pass *)

Lemma isMatch_spec (oldLines window : list string) :
  isMatch oldLines window = true <->
  forall j oldLine, oldLines !! j = Some oldLine ->
    exists contentLine,
      window !! j = Some contentLine /\ trim oldLine = trim contentLine.
Proof.
  revert window; induction oldLines as [|o os IH]; intros window; simpl.
  - split; [intros _ j x Hj; by rewrite lookup_nil in Hj | done].
  - destruct window as [|w ws].
    + split; [done|]. intros H.
      destruct (H 0 o eq_refl) as (c & Hc & _). by rewrite lookup_nil in Hc.
    + rewrite andb_true_iff, String.eqb_eq, IH. split.
      * intros [Ht Hrest] [|j] x Hj; simpl in *.
        -- injection Hj as <-. eauto.
        -- by apply Hrest.
      * intros H. split.
        -- destruct (H 0 o eq_refl) as (c & [= <-] & Ht). done.
        -- intros j x Hj. apply (H (S j) x Hj).
Qed.

Lemma matchesAt_spec (oldLines contentLines : list string) (i : nat) :
  windowMatches oldLines contentLines i <->
  i + length oldLines <= length contentLines /\
  matchesAt oldLines contentLines i = true.
Proof.
  unfold windowMatches, matchesAt, slice. rewrite isMatch_spec.
  split; intros [Hlen H]; (split; [done|]); intros j x Hj;
    destruct (H j x Hj) as (c & Hc & Ht); exists c; (split; [|done]);
    assert (j < length oldLines) by (by eapply lookup_lt_Some).
  - rewrite lookup_take_lt by lia. by rewrite lookup_drop.
  - rewrite lookup_take_lt in Hc by lia. by rewrite lookup_drop in Hc.
Qed.

(** [List.find] over consecutive indices returns the least that passes. *)
Lemma find_seq_Some (f : nat -> bool) (a n i : nat) :
  List.find f (seq a n) = Some i <->
  a <= i < a + n /\ f i = true /\ forall k, a <= k < i -> f k = false.
Proof.
  revert a; induction n as [|n IH]; intros a; simpl.
  - split; [done | lia].
  - destruct (f a) eqn:Ea.
    + split.
      * intros [= <-]. split_and!; [lia..|done|lia].
      * intros (Hr & Hi & Hk). f_equal.
        destruct (decide (a = i)) as [|Hne]; [done|].
        rewrite Hk in Ea by lia. done.
    + rewrite IH. split.
      * intros (Hr & Hi & Hk). split_and!; [lia..|done|].
        intros k Hka. destruct (decide (k = a)) as [->|]; [done|].
        apply Hk. lia.
      * intros (Hr & Hi & Hk).
        assert (a <> i) by (intros ->; congruence).
        split_and!; [lia..|done|]. intros k Hka. apply Hk. lia.
Qed.

Lemma find_seq_None (f : nat -> bool) (a n : nat) :
  List.find f (seq a n) = None <-> forall k, a <= k < a + n -> f k = false.
Proof.
  revert a; induction n as [|n IH]; intros a; simpl.
  - split; [lia | done].
  - destruct (f a) eqn:Ea.
    + split; [done|]. intros H. rewrite H in Ea by lia. done.
    + rewrite IH. split; intros H k Hk.
      * destruct (decide (k = a)) as [->|]; [done|]. apply H. lia.
      * apply H. lia.
Qed.

(** The loop stops at the lowest-index matching window. *)
Lemma findWindow_Some (oldLines contentLines : list string) (i : nat) :
  findWindow oldLines contentLines = Some i <->
  windowMatches oldLines contentLines i /\
  forall k, k < i -> ~ windowMatches oldLines contentLines k.
Proof.
  unfold findWindow, windowStarts.
  destruct (Nat.leb_spec (length oldLines) (length contentLines)) as [Hle|Hgt].
  - rewrite find_seq_Some, matchesAt_spec. split.
    + intros (Hr & Hi & Hk). split; [split; [lia|done]|].
      intros k Hki. rewrite matchesAt_spec. intros [_ Hm].
      rewrite Hk in Hm by lia. done.
    + intros [[Hr Hi] Hk]. split_and!; [lia..|done|].
      intros k Hki. destruct (matchesAt oldLines contentLines k) eqn:Ek; [|done].
      destruct (Hk k); [lia|]. apply matchesAt_spec. split; [lia|done].
  - simpl. split; [done|]. intros [[Hr _] _]. lia.
Qed.

Lemma findWindow_None (oldLines contentLines : list string) :
  findWindow oldLines contentLines = None <->
  forall i, ~ windowMatches oldLines contentLines i.
Proof.
  unfold findWindow, windowStarts.
  destruct (Nat.leb_spec (length oldLines) (length contentLines)) as [Hle|Hgt].
  - rewrite find_seq_None. split.
    + intros H i. rewrite matchesAt_spec. intros [Hr Hm].
      rewrite H in Hm by lia. done.
    + intros H k Hk. destruct (matchesAt oldLines contentLines k) eqn:Ek; [|done].
      destruct (H k). apply matchesAt_spec. split; [lia|done].
  - simpl. split; [|done]. intros _ i [Hr _]. lia.
Qed.

Lemma not_occursIn_includes (s needle : string) :
  ~ occursIn needle s <-> includes s needle = false.
Proof.
  rewrite <- includes_occursIn. by destruct (includes s needle).
Qed.

(** An edit without exact match whose lowest matching window is [i]. *)
Lemma applyEdit_fuzzy (buffer : string) (edit : Edit) (i : nat) :
  let normalizedOld := normalizeLineEndings (oldText edit) in
  let normalizedNew := normalizeLineEndings (newText edit) in
  includes buffer normalizedOld = false ->
  findWindow (splitLines normalizedOld) (splitLines buffer) = Some i ->
  applyEdit buffer edit
    = inr (FuzzyPass i,
           replaceWindow (splitLines normalizedOld) (splitLines buffer)
             normalizedNew i).
Proof.
  intros normalizedOld normalizedNew Hinc Hfind. unfold applyEdit.
  fold normalizedOld normalizedNew. by rewrite Hinc, Hfind.
Qed.

(** An edit with neither an exact nor a fuzzy match. *)
Lemma applyEdit_no_match (buffer : string) (edit : Edit) :
  let normalizedOld := normalizeLineEndings (oldText edit) in
  ~ occursIn normalizedOld buffer ->
  (forall i, ~ windowMatches (splitLines normalizedOld) (splitLines buffer) i) ->
  applyEdit buffer edit = inl (NoMatchFound (oldText edit)).
Proof.
  intros normalizedOld Hocc Hwin. unfold applyEdit. fold normalizedOld.
  apply not_occursIn_includes in Hocc. apply findWindow_None in Hwin.
  by rewrite Hocc, Hwin.
Qed.

(** C5: without an exact occurrence, the fuzzy pass takes the matching
    window of lowest index [i]: the lines before [i] and after the window
    are kept and the window is replaced by the re-indented new lines. With
    the buffer lines ["  foo"; "  bar"; "  foo"; "  bar"] and the old text
    "foo\nbar" the first pair is replaced and the second pair stays. *)
Theorem applyEdit_fuzzy_first_window (buffer : string) (edit : Edit) (i : nat) :
  let normalizedOld := normalizeLineEndings (oldText edit) in
  let normalizedNew := normalizeLineEndings (newText edit) in
  let oldLines := splitLines normalizedOld in
  let contentLines := splitLines buffer in
  ~ occursIn normalizedOld buffer ->
  windowMatches oldLines contentLines i ->
  (forall k, k < i -> ~ windowMatches oldLines contentLines k) ->
  (exists originalIndent,
     leadingWhitespace <$> contentLines !! i = Some originalIndent /\
     applyEdit buffer edit
       = inr (FuzzyPass i,
              joinLines (take i contentLines
                         ++ imap (reindent originalIndent oldLines)
                                 (splitLines normalizedNew)
                         ++ drop (i + length oldLines) contentLines))) /\
  (forall new : string,
     applyEdit (joinLines ["  foo"; "  bar"; "  foo"; "  bar"])
               {| oldText := "foo" +:+ nl +:+ "bar"; newText := new |}
       = inr (FuzzyPass 0,
              joinLines (imap (reindent "  " ["foo"; "bar"])
                              (splitLines (normalizeLineEndings new))
                         ++ ["  foo"; "  bar"]))).
Proof.
  intros normalizedOld normalizedNew oldLines contentLines Hocc Hwin Hfirst.
  split.
  - assert (Hi : is_Some (contentLines !! i)).
    { apply lookup_lt_is_Some. destruct Hwin as [Hlen _].
      assert (0 < length oldLines); [|lia].
      subst oldLines. unfold splitLines.
      destruct normalizedOld as [|c s]; simpl; [lia|].
      destruct (Ascii.eqb c LF); [simpl; lia|].
      destruct (splitOn LF s); simpl; lia. }
    destruct Hi as [line Hline]. exists (leadingWhitespace line).
    split; [by rewrite Hline|].
    rewrite (applyEdit_fuzzy buffer edit i).
    + unfold replaceWindow, splice. fold contentLines normalizedOld oldLines.
      by rewrite Hline.
    + by apply not_occursIn_includes.
    + by apply findWindow_Some.
  - intros new. by rewrite (applyEdit_fuzzy _ _ 0).
Qed.

Lemma applyEdit_fuzzy_first_window_witness :
  applyEdit (joinLines ["  foo"; "  bar"; "  foo"; "  bar"])
            {| oldText := "foo" +:+ nl +:+ "bar"; newText := "baz" |}
    = inr (FuzzyPass 0, joinLines ["  baz"; "  foo"; "  bar"]).
Proof.
  pose (buffer := joinLines ["  foo"; "  bar"; "  foo"; "  bar"]).
  pose (edit := {| oldText := "foo" +:+ nl +:+ "bar"; newText := "baz" |}).
  assert (Hocc : ~ occursIn (normalizeLineEndings (oldText edit)) buffer)
    by (apply not_occursIn_includes; reflexivity).
  assert (Hwin : windowMatches (splitLines (normalizeLineEndings (oldText edit)))
                   (splitLines buffer) 0)
    by (apply matchesAt_spec; split; [vm_compute; lia | reflexivity]).
  assert (Hfirst : forall k, k < 0 ->
            ~ windowMatches (splitLines (normalizeLineEndings (oldText edit)))
                (splitLines buffer) k) by lia.
  destruct (applyEdit_fuzzy_first_window buffer edit 0 Hocc Hwin Hfirst)
    as [(originalIndent & Hind & Happly) _].
  injection Hind as <-. exact Happly.
Defined.

(** ** Line endings *)

Lemma includes_false_prefix (s needle : string) :
  includes s needle = false -> String.prefix needle s = false.
Proof.
  unfold includes. destruct (indexOf needle s) eqn:E; [done|]. intros _.
  by apply (indexOf_None _ _ 0) in E.
Qed.

Lemma includes_false_cons (c : ascii) (s needle : string) :
  includes (String c s) needle = false -> includes s needle = false.
Proof.
  unfold includes. destruct (indexOf needle (String c s)) eqn:E; [done|].
  intros _. destruct (indexOf needle s) as [i|] eqn:Es; [|done].
  apply indexOf_Some in Es as [Hp _].
  apply (indexOf_None _ _ (S i)) in E. simpl in E. congruence.
Qed.

(** A text without "\r\n" is its own normal form. *)
Lemma normalizeLineEndings_id (text : string) :
  includes text crlf = false -> normalizeLineEndings text = text.
Proof.
  unfold normalizeLineEndings.
  induction text as [|c rest IH]; [done|]. intros H.
  pose proof (includes_false_cons _ _ _ H) as Hrest.
  apply includes_false_prefix in H. simpl.
  destruct (Ascii.eqb_spec c CR) as [->|_].
  - destruct rest as [|d rest']; [done|].
    destruct (Ascii.eqb_spec d LF) as [->|_].
    + change (String CR (String LF rest')) with (crlf +:+ rest') in H.
      by rewrite prefix_app in H.
    + f_equal. by apply IH.
  - f_equal. by apply IH.
Qed.

(** ** Effects of the handlers *)

Lemma applyEdits_app (buffer : string) (pre rest : list Edit) :
  applyEdits buffer (pre ++ rest)
    = match applyEdits buffer pre with
      | inr b => applyEdits b rest
      | inl e => inl e
      end.
Proof.
  revert buffer; induction pre as [|e pre IH]; intros buffer; simpl; [done|].
  destruct (applyEdit buffer e) as [err|[pass b]]; [done | apply IH].
Qed.

Section EditorFacts.

Variable patch : string -> string -> string -> string -> string -> string -> string.

Lemma applyFileEdits_run (path : string) (edits : list Edit) (dryRun : bool)
    (st : State) (raw : string) :
  files st !! path = Some raw ->
  let content := normalizeLineEndings raw in
  applyFileEdits patch path edits dryRun st =
    match applyEdits content edits with
    | inl e =>
        (inl e,
         if dryRun then st
         else {| files := files st; editHistory := pushed st path content |})
    | inr modifiedContent =>
        (inr (fenced (createUnifiedDiff patch content modifiedContent path) ""),
         if dryRun then st
         else {| files := <[path := modifiedContent]> (files st);
                 editHistory := pushed st path content |})
    end.
Proof.
  intros Hraw content. unfold applyFileEdits, bind, readFile.
  rewrite Hraw. fold content.
  destruct dryRun; simpl; destruct (applyEdits content edits); reflexivity.
Qed.

Lemma applyFileEdits_missing (path : string) (edits : list Edit)
    (dryRun : bool) (st : State) :
  files st !! path = None ->
  applyFileEdits patch path edits dryRun st = (inl (FsFault path), st).
Proof.
  intros Hraw. unfold applyFileEdits, bind, readFile. by rewrite Hraw.
Qed.

(** An error of [applyFileEdits] is raised before [fs.writeFile]. *)
Lemma applyFileEdits_error_no_write (path : string) (edits : list Edit)
    (dryRun : bool) (st : State) (e : Error) :
  fst (applyFileEdits patch path edits dryRun st) = inl e ->
  files (snd (applyFileEdits patch path edits dryRun st)) = files st.
Proof.
  destruct (files st !! path) as [raw|] eqn:Hraw.
  - rewrite (applyFileEdits_run _ _ _ _ _ Hraw).
    destruct (applyEdits _ edits); [|done]. by destruct dryRun.
  - by rewrite applyFileEdits_missing.
Qed.

Lemma insertAtLine_run (path : string) (insertLine : Z) (newText : string)
    (st : State) (raw : string) :
  files st !! path = Some raw ->
  let modifiedContent := joinLines (insertLines raw insertLine newText) in
  insertAtLine patch path insertLine newText st =
    (inr (fenced (createUnifiedDiff patch raw modifiedContent path) ""),
     {| files := <[path := modifiedContent]> (files st);
        editHistory := pushed st path raw |}).
Proof.
  intros Hraw. unfold insertAtLine, bind, readFile. by rewrite Hraw.
Qed.

Lemma insertAtLine_missing (path : string) (insertLine : Z) (newText : string)
    (st : State) :
  files st !! path = None ->
  insertAtLine patch path insertLine newText st = (inl (FsFault path), st).
Proof.
  intros Hraw. unfold insertAtLine, bind, readFile. by rewrite Hraw.
Qed.

Lemma undoEdit_run (validPath requested : string) (st : State)
    (history : list string) (previous current : string) :
  editHistory st !! validPath = Some (history ++ [previous]) ->
  files st !! validPath = Some current ->
  undoEdit patch validPath requested st =
    (inr (fenced (createUnifiedDiff patch current previous validPath)
                 "Reverted to previous version."),
     {| files := <[validPath := previous]> (files st);
        editHistory := <[validPath := history]> (editHistory st) |}).
Proof.
  intros Hh Hf. unfold undoEdit, bind, readFile, writeFile.
  rewrite Hh, last_snoc, removelast_last. simpl. by rewrite Hf.
Qed.

Lemma undoEdit_no_history (validPath requested : string) (st : State) :
  editHistory st !! validPath = None \/ editHistory st !! validPath = Some [] ->
  undoEdit patch validPath requested st = (inl (NoHistory requested), st).
Proof.
  intros [H|H]; unfold undoEdit; by rewrite H.
Qed.

End EditorFacts.

(** ** Indentation of the replacement lines *)

(** C3 as stated does not hold: the second replacement line is not given
    the indentation of the window. *)
Lemma applyEdits_indentation_not_on_every_line :
  applyEdits indentedBuffer [indentedEdit]
    <> inr ("  baz" +:+ nl +:+ "  qux" +:+ nl).
Proof. discriminate. Qed.

(** C3, amended: for the buffer "  foo\n  bar\n" and the edit
    "foo\nbar" -> "baz\nqux" the result is "  baz\nqux\n", in the buffer and
    in the file. The first replacement line receives the indentation of the
    first line of the window; a later line receives it, followed by the
    surplus of its own indentation over that of the old line, only when both
    it and the old line start with whitespace, and is otherwise emitted
    unchanged. *)
Theorem applyEdits_indentation_first_line
    (patch : string -> string -> string -> string -> string -> string -> string)
    (path : string) (st : State) :
  files st !! path = Some indentedBuffer ->
  applyEdit indentedBuffer indentedEdit
    = inr (FuzzyPass 0, "  baz" +:+ nl +:+ "qux" +:+ nl) /\
  files (snd (applyFileEdits patch path [indentedEdit] false st)) !! path
    = Some ("  baz" +:+ nl +:+ "qux" +:+ nl) /\
  (forall originalIndent oldLines line,
     reindent originalIndent oldLines 0 line
       = originalIndent +:+ trimStart line) /\
  (forall originalIndent oldLines j line,
     j <> 0 ->
     leadingWhitespace line = "" \/
     leadingWhitespace <$> oldLines !! j = None \/
     leadingWhitespace <$> oldLines !! j = Some "" ->
     reindent originalIndent oldLines j line = line) /\
  (forall originalIndent oldLines j oldLine line,
     j <> 0 ->
     oldLines !! j = Some oldLine ->
     leadingWhitespace oldLine <> "" ->
     leadingWhitespace line <> "" ->
     reindent originalIndent oldLines j line
       = originalIndent
           +:+ repeatChar " " (String.length (leadingWhitespace line)
                               - String.length (leadingWhitespace oldLine))
           +:+ trimStart line).
Proof.
  intros Hfile. split_and!.
  - reflexivity.
  - rewrite (applyFileEdits_run _ _ _ _ _ _ Hfile). simpl.
    by rewrite lookup_insert_eq.
  - reflexivity.
  - intros originalIndent oldLines j line Hj H. unfold reindent.
    apply Nat.eqb_neq in Hj. rewrite Hj.
    destruct H as [->|[H|H]].
    + by rewrite andb_false_r.
    + destruct (oldLines !! j); [done|]. reflexivity.
    + destruct (oldLines !! j); [|done]. injection H as ->. reflexivity.
  - intros originalIndent oldLines j oldLine line Hj Hold Ho Hn.
    unfold reindent. apply Nat.eqb_neq in Hj. rewrite Hj, Hold.
    destruct (leadingWhitespace oldLine) as [|c o] eqn:Eo; [done|].
    destruct (leadingWhitespace line) as [|d n] eqn:En; [done|].
    cbn [isEmpty negb andb]. do 3 f_equal. lia.
Qed.

Lemma applyEdits_indentation_first_line_witness :
  files (initialState {[ "/a/allowed/f.txt" := indentedBuffer ]})
    !! "/a/allowed/f.txt" = Some indentedBuffer /\
  files (snd (applyFileEdits plainPatch "/a/allowed/f.txt" [indentedEdit] false
                (initialState {[ "/a/allowed/f.txt" := indentedBuffer ]})))
    !! "/a/allowed/f.txt" = Some ("  baz" +:+ nl +:+ "qux" +:+ nl) /\
  reindent "  " ["foo"; "bar"] 1 "qux" = "qux" /\
  reindent "  " ["foo"; "  bar"] 1 "    qux" = "    qux".
Proof.
  assert (Hfile :
    files (initialState {[ "/a/allowed/f.txt" := indentedBuffer ]})
      !! "/a/allowed/f.txt" = Some indentedBuffer) by reflexivity.
  destruct (applyEdits_indentation_first_line plainPatch "/a/allowed/f.txt"
              _ Hfile) as (_ & Hwritten & _ & Hplain & Hboth).
  split_and!.
  - exact Hfile.
  - exact Hwritten.
  - apply Hplain; [lia | left; reflexivity].
  - apply (Hboth "  " ["foo"; "  bar"] 1 "  bar" "    qux");
      [lia | reflexivity | discriminate | discriminate].
Defined.

(** ** Failure before the write; undo after an edit *)

(** C6: when an edit of the request finds neither an exact occurrence nor a
    matching window in the buffer left by the edits before it,
    [applyFileEdits] fails with [NoMatchFound] for that edit and the files
    on disk are what they were before the call. *)
Theorem applyFileEdits_no_match_leaves_file
    (patch : string -> string -> string -> string -> string -> string -> string)
    (path : string) (before : list Edit) (edit : Edit) (after : list Edit)
    (dryRun : bool) (st : State) (raw buffer : string) :
  files st !! path = Some raw ->
  applyEdits (normalizeLineEndings raw) before = inr buffer ->
  ~ occursIn (normalizeLineEndings (oldText edit)) buffer ->
  (forall i, ~ windowMatches (splitLines (normalizeLineEndings (oldText edit)))
                             (splitLines buffer) i) ->
  let r := applyFileEdits patch path (before ++ edit :: after) dryRun st in
  fst r = inl (NoMatchFound (oldText edit)) /\
  files (snd r) = files st /\
  files (snd r) !! path = Some raw.
Proof.
  intros Hraw Hbefore Hocc Hwin r.
  assert (Hfail : fst r = inl (NoMatchFound (oldText edit))).
  { subst r. rewrite (applyFileEdits_run _ _ _ _ _ _ Hraw).
    rewrite applyEdits_app, Hbefore. simpl.
    by rewrite (applyEdit_no_match buffer edit Hocc Hwin). }
  assert (Hfiles : files (snd r) = files st)
    by (by eapply applyFileEdits_error_no_write).
  split_and!; [done..|]. by rewrite Hfiles.
Qed.

Lemma applyFileEdits_no_match_leaves_file_witness :
  let st := initialState {[ "/a/allowed/f.txt" := indentedBuffer ]} in
  let r := applyFileEdits plainPatch "/a/allowed/f.txt"
             ([ {| oldText := "foo"; newText := "baz" |} ]
              ++ {| oldText := "foo"; newText := "quux" |} :: [])
             false st in
  fst r = inl (NoMatchFound "foo") /\
  files (snd r) = files st /\
  files (snd r) !! "/a/allowed/f.txt" = Some indentedBuffer.
Proof.
  apply (applyFileEdits_no_match_leaves_file plainPatch "/a/allowed/f.txt"
           [ {| oldText := "foo"; newText := "baz" |} ]
           {| oldText := "foo"; newText := "quux" |} [] false
           (initialState {[ "/a/allowed/f.txt" := indentedBuffer ]})
           indentedBuffer ("  baz" +:+ nl +:+ "  bar" +:+ nl)).
  - reflexivity.
  - reflexivity.
  - apply not_occursIn_includes. reflexivity.
  - apply findWindow_None. reflexivity.
Defined.


(** ** Undo after an edit, on the bytes of the file *)

Section WideFacts.

Variable patch : string -> string -> Wide.text -> Wide.text -> string -> string -> Wide.text.

(** A text without "\r\n" is its own normal form. *)
Lemma wide_normalize_id (t : Wide.text) :
  Wide.hasCRLF t = false -> Wide.normalizeLineEndings t = t.
Proof.
  unfold Wide.normalizeLineEndings.
  induction t as [|c rest IH]; [done|]. intros H. simpl in *.
  destruct rest as [|d rest'].
  - by destruct (c =? Wide.CR)%N.
  - apply orb_false_iff in H as [Hpair Hrest].
    destruct (c =? Wide.CR)%N; simpl in Hpair.
    + rewrite Hpair. f_equal. by apply IH.
    + f_equal. by apply IH.
Qed.

Lemma wide_last_pushBounded (history : list Wide.text) (content : Wide.text) :
  exists below, Wide.pushBounded history content = below ++ [content].
Proof.
  unfold Wide.pushBounded.
  destruct (MAX_HISTORY_SIZE <? length (history ++ [content])) eqn:E.
  - destruct history as [|h history]; simpl.
    + rewrite Nat.ltb_lt in E. unfold MAX_HISTORY_SIZE in E. simpl in E. lia.
    + by exists history.
  - by exists history.
Qed.

(** [undo_edit] on a stack with a snapshot on top, a readable file and a
    write that is not refused. *)
Lemma wide_undoEdit_run (validPath requested : string) (st : Wide.State)
    (history : list Wide.text) (previous : Wide.text) (bytes : list N) :
  Wide.editHistory st !! validPath = Some (history ++ [previous]) ->
  Wide.disk st !! validPath = Some bytes ->
  validPath ∉ Wide.refused st ->
  exists report,
    Wide.undoEdit patch validPath requested st =
      (inr report,
       {| Wide.disk := <[validPath := Utf8.encode previous]> (Wide.disk st);
          Wide.refused := Wide.refused st;
          Wide.editHistory := <[validPath := history]> (Wide.editHistory st) |}).
Proof.
  intros Hh Hd Hw. unfold Wide.undoEdit, Wide.readFile, Wide.writeFile.
  rewrite Hh, last_snoc, removelast_last. simpl. rewrite Hd.
  destruct (decide (validPath ∈ Wide.refused st)); [done|]. by eexists.
Qed.

(** [undo_edit] when the write is refused: the snapshot is gone. *)
Lemma wide_undoEdit_refused (validPath requested : string) (st : Wide.State)
    (history : list Wide.text) (previous : Wide.text) (bytes : list N) :
  Wide.editHistory st !! validPath = Some (history ++ [previous]) ->
  Wide.disk st !! validPath = Some bytes ->
  validPath ∈ Wide.refused st ->
  Wide.undoEdit patch validPath requested st =
    (inl (Wide.FsFault validPath),
     {| Wide.disk := Wide.disk st; Wide.refused := Wide.refused st;
        Wide.editHistory := <[validPath := history]> (Wide.editHistory st) |}).
Proof.
  intros Hh Hd Hw. unfold Wide.undoEdit, Wide.readFile, Wide.writeFile.
  rewrite Hh, last_snoc, removelast_last. simpl. rewrite Hd.
  by destruct (decide (validPath ∈ Wide.refused st)).
Qed.

(** What a run of [applyFileEdits] that is not a dry run returns and
    leaves, for a readable file. *)
Lemma wide_applyFileEdits_run (path : string) (edits : list Wide.Edit)
    (st : Wide.State) (bytes : list N) :
  Wide.disk st !! path = Some bytes ->
  let content := Wide.normalizeLineEndings (Utf8.decode bytes) in
  let st1 := Wide.saveToHistory path content st in
  Wide.applyFileEdits patch path edits false st =
    match Wide.applyEdits content edits with
    | inl e => (inl e, st1)
    | inr modifiedContent =>
        if decide (path ∈ Wide.refused st) then (inl (Wide.FsFault path), st1)
        else
          (inr (Wide.fenced
                  (Wide.createUnifiedDiff patch content modifiedContent path) []),
           {| Wide.disk := <[path := Utf8.encode modifiedContent]> (Wide.disk st);
              Wide.refused := Wide.refused st;
              Wide.editHistory := Wide.editHistory st1 |})
    end.
Proof.
  intros Hd content st1. unfold Wide.applyFileEdits, Wide.readFile.
  rewrite Hd. fold content. cbv zeta. fold st1.
  destruct (Wide.applyEdits content edits); [done|].
  unfold Wide.writeFile. simpl.
  by destruct (decide (path ∈ Wide.refused st)).
Qed.

End WideFacts.

(** Bytes below 128 are valid UTF-8: decoding and encoding gives them back. *)
Lemma utf8_ascii_round_trip (bytes : list N) :
  Forall (fun b => (b < 128)%N) bytes ->
  Utf8.encode (Utf8.decode bytes) = bytes.
Proof.
  unfold Utf8.decode. induction 1 as [|b bytes Hb _ IH]; [done|].
  simpl. unfold Utf8.lead.
  destruct (N.ltb_spec b 128) as [_|]; [|lia]. simpl.
  unfold Utf8.isHighSurrogate, Utf8.isLowSurrogate, Utf8.encodeCodePoint.
  destruct (N.leb_spec 55296 b); [lia|]. destruct (N.leb_spec 56320 b); [lia|].
  simpl. destruct (N.ltb_spec b 128); [|lia]. simpl. by rewrite IH.
Qed.

(** C7 as stated does not hold: the file with the bytes ff 66 6f 6f 0a has
    no "\r\n"; the edit "foo" -> "bar" and the undo both succeed, and the
    file then holds ef bf bd 66 6f 6f 0a. Reading decodes the byte ff to
    U+FFFD, and writing encodes U+FFFD as ef bf bd. *)
Lemma undo_after_edit_changes_invalid_utf8 :
  let p := "/a/allowed/f.bin" in
  let st := diskWith p invalidUtf8File in
  let r := Wide.applyFileEdits plainPatchWide p [fooToBar] false st in
  let u := Wide.undoEdit plainPatchWide p "f.bin" (snd r) in
  Wide.hasCRLF (Utf8.decode invalidUtf8File) = false /\
  (exists diff, fst r = inr diff) /\
  Wide.disk (snd r) !! p = Some [239; 191; 189; 98; 97; 114; 10]%N /\
  (exists report, fst u = inr report) /\
  Wide.disk (snd u) !! p = Some [239; 191; 189; 102; 111; 111; 10]%N /\
  Wide.disk (snd u) !! p <> Wide.disk st !! p.
Proof.
  split_and!.
  - reflexivity.
  - eexists. vm_compute. reflexivity.
  - vm_compute. reflexivity.
  - eexists. vm_compute. reflexivity.
  - vm_compute. reflexivity.
  - vm_compute. discriminate.
Qed.

(** C7, amended: for a file whose bytes are valid UTF-8 (decoding them and
    encoding the text again gives the same bytes) and whose text has no
    "\r\n", a successful [applyFileEdits] that is not a dry run, followed by
    [undo_edit] on the same resolved path, leaves the file with the bytes it
    had before the edit; no other file has changed. *)
Theorem undo_after_edit_restores_valid_utf8
    (patch : string -> string -> Wide.text -> Wide.text -> string -> string -> Wide.text)
    (path requested : string) (edits : list Wide.Edit) (st st1 : Wide.State)
    (bytes : list N) (diff : Wide.text) :
  Wide.disk st !! path = Some bytes ->
  Utf8.encode (Utf8.decode bytes) = bytes ->
  Wide.hasCRLF (Utf8.decode bytes) = false ->
  Wide.applyFileEdits patch path edits false st = (inr diff, st1) ->
  exists report st2,
    Wide.undoEdit patch path requested st1 = (inr report, st2) /\
    Wide.disk st2 !! path = Some bytes /\
    Wide.disk st2 = Wide.disk st.
Proof.
  intros Hd Hvalid Hlf Hrun.
  rewrite (wide_applyFileEdits_run _ _ _ _ _ Hd) in Hrun.
  rewrite (wide_normalize_id _ Hlf) in Hrun.
  destruct (Wide.applyEdits (Utf8.decode bytes) edits) as [e|modified]; [done|].
  destruct (decide (path ∈ Wide.refused st)) as [|Hw]; [done|].
  injection Hrun as _ <-.
  destruct (wide_last_pushBounded (default [] (Wide.editHistory st !! path))
              (Utf8.decode bytes)) as [below Hbelow].
  match goal with |- context [Wide.undoEdit _ _ _ ?s] => set (st1 := s) end.
  destruct (wide_undoEdit_run patch path requested st1 below (Utf8.decode bytes)
              (Utf8.encode modified)) as [report Hundo].
  - subst st1. simpl. by rewrite lookup_insert_eq, Hbelow.
  - subst st1. simpl. by rewrite lookup_insert_eq.
  - exact Hw.
  - eexists _, _. split; [exact Hundo|]. subst st1. simpl.
    rewrite insert_insert_eq, Hvalid. split.
    + by rewrite lookup_insert_eq.
    + by apply insert_id.
Qed.

Lemma undo_after_edit_restores_valid_utf8_witness :
  let p := "/a/allowed/f.txt" in
  let bytes := [32; 102; 111; 111; 10]%N in
  let st := diskWith p bytes in
  exists report st2,
    Wide.undoEdit plainPatchWide p "f.txt"
      (snd (Wide.applyFileEdits plainPatchWide p [fooToBar] false st))
      = (inr report, st2) /\
    Wide.disk st2 !! p = Some bytes /\
    Wide.disk st2 = Wide.disk st.
Proof.
  intros p bytes st.
  eapply (undo_after_edit_restores_valid_utf8 plainPatchWide p "f.txt"
            [fooToBar] st _ bytes).
  - reflexivity.
  - apply utf8_ascii_round_trip. repeat constructor.
  - reflexivity.
  - vm_compute. reflexivity.
Defined.

(** ** HistoryStore: the bound *)

Lemma pushBounded_below (history : list string) (content : string) :
  length history < MAX_HISTORY_SIZE ->
  pushBounded history content = history ++ [content].
Proof.
  intros H. unfold pushBounded.
  destruct (Nat.ltb_spec MAX_HISTORY_SIZE (length (history ++ [content])))
    as [Hlt|_]; [|done].
  rewrite length_app in Hlt. simpl in Hlt. lia.
Qed.

Lemma pushBounded_full (history : list string) (content : string) :
  MAX_HISTORY_SIZE <= length history ->
  pushBounded history content = drop 1 history ++ [content].
Proof.
  intros H. unfold pushBounded.
  destruct (Nat.ltb_spec MAX_HISTORY_SIZE (length (history ++ [content])))
    as [_|Hge].
  - destruct history; [simpl in H; unfold MAX_HISTORY_SIZE in H; lia | done].
  - rewrite length_app in Hge. simpl in Hge. lia.
Qed.

Lemma pushBounded_length (history : list string) (content : string) :
  length history <= MAX_HISTORY_SIZE ->
  length (pushBounded history content) <= MAX_HISTORY_SIZE.
Proof.
  intros H. destruct (decide (length history < MAX_HISTORY_SIZE)).
  - rewrite pushBounded_below by done. rewrite length_app. simpl. lia.
  - rewrite pushBounded_full by lia.
    rewrite length_app, length_drop. simpl. unfold MAX_HISTORY_SIZE in *. lia.
Qed.

Lemma pushBounded_lastN (history : list string) (content : string) :
  length history <= MAX_HISTORY_SIZE ->
  pushBounded history content = lastN MAX_HISTORY_SIZE (history ++ [content]).
Proof.
  intros H. unfold lastN. rewrite length_app. simpl.
  destruct (decide (length history < MAX_HISTORY_SIZE)).
  - rewrite pushBounded_below by done.
    by replace (length history + 1 - MAX_HISTORY_SIZE) with 0 by lia.
  - rewrite pushBounded_full by lia.
    replace (length history + 1 - MAX_HISTORY_SIZE) with 1 by lia.
    rewrite drop_app_le; [done|]. unfold MAX_HISTORY_SIZE in *. lia.
Qed.

Lemma lastN_lastN_app {A} (n : nat) (a b : list A) :
  lastN n (lastN n a ++ b) = lastN n (a ++ b).
Proof.
  unfold lastN. rewrite !length_app, length_drop.
  destruct (decide (length a <= n)) as [Hle|Hgt].
  - replace (length a - n) with 0 by lia. simpl.
    by replace (length a - 0 + length b - n) with (length a + length b - n) by lia.
  - replace (length a - (length a - n) + length b - n) with (length b) by lia.
    replace (length a + length b - n) with ((length a - n) + length b) by lia.
    rewrite <- drop_drop. f_equal. rewrite drop_app_le by lia. done.
Qed.

Lemma length_lastN {A} (n : nat) (l : list A) : length (lastN n l) <= n.
Proof. unfold lastN. rewrite length_drop. lia. Qed.

Section HistoryFacts.

Variable patch : string -> string -> string -> string -> string -> string -> string.

Lemma histBounded_initial (fs : gmap string string) :
  histBounded (initialState fs).
Proof. intros path history H. simpl in H. by rewrite lookup_empty in H. Qed.

Lemma histBounded_pushed (st : State) (fs : gmap string string)
    (path content : string) :
  histBounded st ->
  histBounded {| files := fs; editHistory := pushed st path content |}.
Proof.
  intros Hst q history. simpl. unfold pushed.
  destruct (decide (path = q)) as [->|Hne].
  - rewrite lookup_insert_eq. intros [= <-]. apply pushBounded_length.
    destruct (editHistory st !! q) as [h|] eqn:E; simpl.
    + by apply (Hst q).
    + unfold MAX_HISTORY_SIZE. lia.
  - rewrite lookup_insert_ne by done. apply Hst.
Qed.

Lemma histBounded_files (st : State) (fs : gmap string string) :
  histBounded st ->
  histBounded {| files := fs; editHistory := editHistory st |}.
Proof. intros Hst q history. apply Hst. Qed.

Lemma length_removelast {A} (l : list A) : length (removelast l) <= length l.
Proof.
  induction l as [|x [|y l] IH]; simpl in *; lia.
Qed.

(** Each request keeps the stacks within the bound. *)
Lemma runOp_histBounded (op : Op) (st : State) :
  histBounded st -> histBounded (snd (runOp patch op st)).
Proof.
  intros Hst. destruct op as [path edits dryRun|path line text|path|path content];
    simpl.
  - destruct (files st !! path) as [raw|] eqn:Hraw.
    + rewrite (applyFileEdits_run _ _ _ _ _ _ Hraw).
      destruct (applyEdits _ edits), dryRun; simpl; try done;
        by apply histBounded_pushed.
    + by rewrite applyFileEdits_missing.
  - destruct (files st !! path) as [raw|] eqn:Hraw.
    + rewrite (insertAtLine_run _ _ _ _ _ _ Hraw). simpl.
      by apply histBounded_pushed.
    + by rewrite insertAtLine_missing.
  - unfold undoEdit.
    destruct (editHistory st !! path) as [history|] eqn:Hh; [|done].
    destruct (last history) as [previous|]; [|done].
    assert (Hst' : histBounded
              {| files := files st;
                 editHistory := <[path := removelast history]> (editHistory st) |}).
    { intros q h. simpl. destruct (decide (path = q)) as [->|Hne].
      - rewrite lookup_insert_eq. intros [= <-].
        pose proof (length_removelast history). pose proof (Hst q _ Hh). lia.
      - rewrite lookup_insert_ne by done. apply Hst. }
    unfold bind, readFile, writeFile. simpl.
    destruct (files st !! path); simpl; [|done].
    exact (histBounded_files _ _ Hst').
  - unfold bind, writeFile. simpl. by apply histBounded_files.
Qed.

Lemma runOps_histBounded (ops : list Op) (st : State) :
  histBounded st -> histBounded (runOps patch ops st).
Proof.
  revert st; induction ops as [|op ops IH]; intros st Hst; simpl; [done|].
  apply IH. by apply runOp_histBounded.
Qed.

(** What a mutating request on [p] does to the stack and the file of [p]. *)
Lemma runOp_mutating (p : string) (op : Op) (st : State) (current : string) :
  mutatesPath p op = true ->
  files st !! p = Some current ->
  editHistory (snd (runOp patch op st)) !! p
    = Some (pushBounded (default [] (editHistory st !! p))
                        (snapshotTaken op current)) /\
  is_Some (files (snd (runOp patch op st)) !! p).
Proof.
  intros Hop Hfile.
  destruct op as [path edits dryRun|path line text|path|path content];
    simpl in Hop; try done.
  - apply andb_true_iff in Hop as [Hp Hdry].
    apply String.eqb_eq in Hp as ->. destruct dryRun; [done|]. simpl.
    rewrite (applyFileEdits_run _ _ _ _ _ _ Hfile).
    destruct (applyEdits _ edits); simpl; unfold pushed;
      rewrite lookup_insert_eq; (split; [done|]).
    + by rewrite Hfile.
    + by rewrite lookup_insert_eq.
  - apply String.eqb_eq in Hop as ->. simpl.
    rewrite (insertAtLine_run _ _ _ _ _ _ Hfile). simpl. unfold pushed.
    by rewrite !lookup_insert_eq.
Qed.

(** After mutating requests on [p], the stack of [p] holds the last ten of
    the snapshots saved so far. *)
Lemma runOps_snapshots (p : string) (ops : list Op) (st : State) :
  Forall (fun op => mutatesPath p op = true) ops ->
  is_Some (files st !! p) ->
  length (default [] (editHistory st !! p)) <= MAX_HISTORY_SIZE ->
  default [] (editHistory (runOps patch ops st) !! p)
    = lastN MAX_HISTORY_SIZE
        (default [] (editHistory st !! p) ++ snapshots patch p ops st) /\
  is_Some (files (runOps patch ops st) !! p).
Proof.
  revert st; induction ops as [|op ops IH]; intros st Hops [current Hfile] Hlen.
  - simpl. rewrite app_nil_r. split; [|by eexists].
    unfold lastN. by replace (_ - _) with 0 by lia.
  - apply Forall_cons in Hops as [Hop Hops].
    destruct (runOp_mutating p op st current Hop Hfile) as [Hh Hf].
    simpl. destruct (IH (snd (runOp patch op st)) Hops Hf) as [IH1 IH2].
    { rewrite Hh. simpl. by apply pushBounded_length. }
    split; [|done]. rewrite IH1, Hh, Hfile. simpl.
    rewrite pushBounded_lastN by done. rewrite lastN_lastN_app.
    by rewrite <- app_assoc.
Qed.

Lemma length_snapshots (p : string) (ops : list Op) (st : State) :
  length (snapshots patch p ops st) = length ops.
Proof.
  revert st; induction ops as [|op ops IH]; intros st; simpl; [done|].
  by rewrite IH.
Qed.

(** [k] undos in a row walk [k] snapshots down the stack. *)
Lemma runOps_undo (p : string) (k : nat) (st : State) (history : list string) :
  editHistory st !! p = Some history ->
  is_Some (files st !! p) ->
  k <= length history ->
  let st' := runOps patch (replicate k (OpUndo p)) st in
  editHistory st' !! p = Some (take (length history - k) history) /\
  is_Some (files st' !! p) /\
  (1 <= k -> files st' !! p = history !! (length history - k)).
Proof.
  revert st history; induction k as [|k IH]; intros st history Hh Hf Hk; simpl.
  - rewrite Nat.sub_0_r, firstn_all. split_and!; [done|done|lia].
  - destruct (decide (history = [])) as [->|Hne]; [simpl in Hk; lia|].
    destruct (exists_last Hne) as (below & previous & ->).
    destruct Hf as [current Hf].
    rewrite (undoEdit_run _ _ _ _ _ _ _ Hh Hf). simpl.
    rewrite length_app in *. simpl in *.
    edestruct (IH {| files := <[p := previous]> (files st);
                     editHistory := <[p := below]> (editHistory st) |} below)
      as (IH1 & IH2 & IH3); simpl.
    { by rewrite lookup_insert_eq. }
    { rewrite lookup_insert_eq. by eexists. }
    { lia. }
    replace (length below + 1 - S k) with (length below - k) by lia.
    split_and!; [|done|].
    + rewrite IH1. f_equal. rewrite take_app_le by lia. done.
    + intros _. destruct k as [|k].
      * simpl. rewrite lookup_insert_eq, Nat.sub_0_r.
        by rewrite lookup_app_r, Nat.sub_diag.
      * rewrite IH3 by lia. rewrite lookup_app_l by lia. done.
Qed.

End HistoryFacts.

(** C8: [saveToHistory] appends the snapshot and, when the stack then holds
    more than ten, drops the entry at index 0; no request brings a stack
    above ten entries. After eleven mutating requests on one path that had
    no history, the stack holds the snapshots of requests 2 to 11: ten undos
    write them back, latest first, and the eleventh undo fails with
    [NoHistory]. *)
Theorem history_keeps_last_ten
    (patch : string -> string -> string -> string -> string -> string -> string) :
  (forall history content,
     (length history < 10 ->
      pushBounded history content = history ++ [content]) /\
     (10 <= length history ->
      pushBounded history content = drop 1 history ++ [content])) /\
  (forall st path content history,
     snd (saveToHistory path content st)
       = {| files := files st; editHistory := pushed st path content |} /\
     (histBounded st ->
      editHistory (snd (saveToHistory path content st)) !! path = Some history ->
      length history <= 10)) /\
  (forall ops fs, histBounded (runOps patch ops (initialState fs))) /\
  (forall p ops st,
     editHistory st !! p = None ->
     is_Some (files st !! p) ->
     length ops = 11 ->
     Forall (fun op => mutatesPath p op = true) ops ->
     let saved := snapshots patch p ops st in
     let st1 := runOps patch ops st in
     editHistory st1 !! p = Some (drop 1 saved) /\
     (forall k, 1 <= k <= 10 ->
        files (runOps patch (replicate k (OpUndo p)) st1) !! p
          = saved !! (11 - k)) /\
     fst (runOp patch (OpUndo p)
            (runOps patch (replicate 10 (OpUndo p)) st1))
       = inl (NoHistory p)).
Proof.
  split_and!.
  - intros history content. split.
    + apply pushBounded_below.
    + apply pushBounded_full.
  - intros st path content history. split; [done|].
    intros Hst. apply (histBounded_pushed st (files st) path content Hst).
  - intros ops fs. apply runOps_histBounded, histBounded_initial.
  - intros p ops st Hnone Hfile Hlen Hops saved st1.
    assert (Hsaved : length saved = 11)
      by (subst saved; by rewrite length_snapshots).
    destruct (runOps_snapshots patch p ops st Hops Hfile) as [Hh Hf].
    { rewrite Hnone. simpl. lia. }
    fold st1 saved in Hh, Hf. rewrite Hnone in Hh.
    change (default [] None ++ saved) with saved in Hh.
    assert (Hten : length (drop 1 saved) = 10)
      by (rewrite length_drop; lia).
    assert (Hstack : editHistory st1 !! p = Some (drop 1 saved)).
    { unfold lastN, MAX_HISTORY_SIZE in Hh. rewrite Hsaved in Hh.
      change (11 - 10) with 1 in Hh.
      destruct (editHistory st1 !! p) as [h|]; simpl in Hh; [by subst|].
      rewrite <- Hh in Hten. simpl in Hten. lia. }
    split_and!; [done| |].
    + intros k Hk.
      destruct (runOps_undo patch p k st1 _ Hstack Hf) as (_ & _ & Hw); [lia|].
      rewrite Hw by lia. rewrite lookup_drop, Hten. f_equal. lia.
    + destruct (runOps_undo patch p 10 st1 _ Hstack Hf) as (He & _ & _); [lia|].
      rewrite Hten, Nat.sub_diag, take_0 in He.
      set (st2 := runOps patch (replicate 10 (OpUndo p)) st1) in *.
      change (runOp patch (OpUndo p) st2) with (undoEdit patch p p st2).
      rewrite undoEdit_no_history; [done|]. right. exact He.
Qed.

Lemma history_keeps_last_ten_witness :
  let p := "/a/allowed/f.txt" in
  let st := initialState {[ p := "0" ]} in
  let st1 := runOps plainPatch elevenInserts st in
  length <$> editHistory st1 !! p = Some 10 /\
  files (runOps plainPatch (replicate 10 (OpUndo p)) st1) !! p
    = Some ("1" +:+ nl +:+ "0") /\
  fst (runOp plainPatch (OpUndo p)
         (runOps plainPatch (replicate 10 (OpUndo p)) st1))
    = inl (NoHistory p).
Proof.
  intros p st st1.
  destruct (history_keeps_last_ten plainPatch) as (_ & _ & _ & H).
  destruct (H p elevenInserts st) as (Hstack & Hundo & Hlast).
  - reflexivity.
  - by eexists.
  - reflexivity.
  - repeat constructor.
  - fold st1 in Hstack, Hundo, Hlast. split_and!.
    + rewrite Hstack. vm_compute. reflexivity.
    + rewrite (Hundo 10) by lia. vm_compute. reflexivity.
    + exact Hlast.
Defined.

(** ** Where line endings are normalized *)

(** C9 as stated does not hold for line insertion: [insertAtLine] splits
    and rewrites the content as it was read. A file "a\r\nb" becomes
    "a\r\nX\nb", not the "a\nX\nb" that normalizing first would give, and
    the snapshot saved is the content with its "\r\n". *)
Lemma insertAtLine_does_not_normalize :
  let p := "/a/allowed/f.txt" in
  let st' := snd (insertAtLine plainPatch p 1 "X" (initialState {[ p := crlfBuffer ]})) in
  files st' !! p = Some ("a" +:+ crlf +:+ "X" +:+ nl +:+ "b") /\
  files st' !! p
    <> Some (joinLines (insertLines (normalizeLineEndings crlfBuffer) 1 "X")) /\
  editHistory st' !! p = Some [crlfBuffer] /\
  normalizeLineEndings crlfBuffer <> crlfBuffer.
Proof. split_and!; [reflexivity | discriminate | reflexivity | discriminate]. Qed.

(** C9, amended: [applyFileEdits] passes the content it has read through
    [normalizeLineEndings] before it compares or changes anything: the edits
    are matched against and applied to the normalized buffer, the snapshot
    saved is the normalized buffer, and two contents with the same
    normalized form give the same result, snapshot and written content.
    [insertAtLine] does not normalize: it saves the content as read and
    writes its lines, split at "\n" alone, with the new text among them. *)
Theorem normalization_in_edits_not_in_insert
    (patch : string -> string -> string -> string -> string -> string -> string)
    (path : string) (st : State) (raw : string) :
  files st !! path = Some raw ->
  (forall edits dryRun,
     let buffer := normalizeLineEndings raw in
     let r := applyFileEdits patch path edits dryRun st in
     (forall e, applyEdits buffer edits = inl e -> fst r = inl e) /\
     (forall modifiedContent,
        applyEdits buffer edits = inr modifiedContent ->
        fst (applyFileEdits patch path edits true st)
          = inr (fenced (createUnifiedDiff patch buffer modifiedContent path) "")) /\
     (forall diff,
        fst r = inr diff ->
        exists modifiedContent,
          applyEdits buffer edits = inr modifiedContent /\
          diff = fenced (createUnifiedDiff patch buffer modifiedContent path) "" /\
          (dryRun = false -> files (snd r) !! path = Some modifiedContent)) /\
     (dryRun = false ->
      editHistory (snd r) !! path
        = Some (pushBounded (default [] (editHistory st !! path)) buffer))) /\
  (forall edits dryRun st2 raw2,
     files st2 !! path = Some raw2 ->
     editHistory st2 = editHistory st ->
     normalizeLineEndings raw2 = normalizeLineEndings raw ->
     let r := applyFileEdits patch path edits dryRun st in
     let r2 := applyFileEdits patch path edits dryRun st2 in
     fst r2 = fst r /\
     editHistory (snd r2) = editHistory (snd r) /\
     (dryRun = false -> isOk (fst r) = true ->
      files (snd r2) !! path = files (snd r) !! path)) /\
  (forall insertLine newText,
     let r := insertAtLine patch path insertLine newText st in
     editHistory (snd r) !! path
       = Some (pushBounded (default [] (editHistory st !! path)) raw) /\
     (isOk (fst r) = true ->
      files (snd r) !! path
        = Some (joinLines (insertLines raw insertLine newText)))).
Proof.
  intros Hraw. split_and!.
  - intros edits dryRun buffer r. subst r.
    rewrite !(applyFileEdits_run _ _ _ _ _ _ Hraw). fold buffer.
    destruct (applyEdits buffer edits) as [e|m]; simpl; split_and!.
    + by intros ? [= <-].
    + by intros ? [=].
    + by intros ? [=].
    + intros ->. simpl. unfold pushed. by rewrite lookup_insert_eq.
    + by intros ? [=].
    + by intros ? [= <-].
    + intros diff [= <-]. exists m. split_and!; [done|done|].
      intros ->. simpl. by rewrite lookup_insert_eq.
    + intros ->. simpl. unfold pushed. by rewrite lookup_insert_eq.
  - intros edits dryRun st2 raw2 Hraw2 Hhist Hnorm r r2. subst r r2.
    rewrite (applyFileEdits_run _ _ _ _ _ _ Hraw).
    rewrite (applyFileEdits_run _ _ _ _ _ _ Hraw2).
    rewrite Hnorm. unfold pushed. rewrite Hhist.
    destruct (applyEdits (normalizeLineEndings raw) edits), dryRun; simpl;
      split_and!; try done; intros;
      by rewrite ?lookup_insert_eq.
  - intros insertLine newText r. subst r.
    rewrite (insertAtLine_run _ _ _ _ _ _ Hraw). simpl. unfold pushed.
    by rewrite !lookup_insert_eq.
Qed.

Lemma normalization_in_edits_not_in_insert_witness :
  let p := "/a/allowed/f.txt" in
  let st := initialState {[ p := crlfBuffer ]} in
  let st2 := initialState {[ p := "a" +:+ nl +:+ "b" ]} in
  let edits := [ {| oldText := "a" +:+ nl +:+ "b"; newText := "c" |} ] in
  files st !! p = Some crlfBuffer /\
  fst (applyFileEdits plainPatch p edits true st)
    = inr (fenced (createUnifiedDiff plainPatch ("a" +:+ nl +:+ "b") "c" p) "") /\
  editHistory (snd (applyFileEdits plainPatch p edits false st)) !! p
    = Some ["a" +:+ nl +:+ "b"] /\
  fst (applyFileEdits plainPatch p edits false st2)
    = fst (applyFileEdits plainPatch p edits false st) /\
  editHistory (snd (insertAtLine plainPatch p 1 "X" st)) !! p
    = Some [crlfBuffer].
Proof.
  intros p st st2 edits.
  assert (Hraw : files st !! p = Some crlfBuffer) by reflexivity.
  destruct (normalization_in_edits_not_in_insert plainPatch p st crlfBuffer Hraw)
    as (Hrun & Hsame & Hinsert).
  split_and!.
  - exact Hraw.
  - destruct (Hrun edits false) as (_ & Hdry & _). apply (Hdry "c"). reflexivity.
  - destruct (Hrun edits false) as (_ & _ & _ & Hsnap). apply (Hsnap eq_refl).
  - apply (Hsame edits false st2 ("a" +:+ nl +:+ "b")); reflexivity.
  - apply (Hinsert 1%Z "X").
Defined.

(** * Further properties of the code *)

(** ** Lines of a text *)

Lemma joinLines_cons (x : string) (l : list string) :
  l <> [] -> joinLines (x :: l) = x +:+ nl +:+ joinLines l.
Proof. by destruct l. Qed.

Lemma splitOn_not_nil (sep : ascii) (s : string) : splitOn sep s <> [].
Proof.
  destruct s as [|c s]; simpl; [done|].
  destruct (Ascii.eqb c sep); [done|]. by destruct (splitOn sep s).
Qed.

(** Splitting at "\n" and joining with "\n" gives the text back. *)
Lemma joinLines_splitLines (s : string) : joinLines (splitLines s) = s.
Proof.
  unfold splitLines. induction s as [|c s IH]; [done|]. simpl.
  destruct (Ascii.eqb_spec c LF) as [->|_].
  - rewrite joinLines_cons by apply splitOn_not_nil. by rewrite IH.
  - pose proof (splitOn_not_nil LF s) as Hne.
    destruct (splitOn LF s) as [|h t]; [done|].
    destruct t as [|h' t]; simpl in *; by rewrite <- IH.
Qed.

Lemma joinLines_app (a b : list string) :
  a <> [] -> b <> [] ->
  joinLines (a ++ b) = joinLines a +:+ nl +:+ joinLines b.
Proof.
  intros Ha Hb. induction a as [|x a IH]; [done|].
  destruct a as [|y a].
  - simpl. by rewrite joinLines_cons.
  - rewrite <- app_comm_cons, !joinLines_cons by done.
    rewrite IH by done. by rewrite !app_assoc_s.
Qed.

(** ** LineInserter *)

Lemma length_splitLines_pos (s : string) : 0 < length (splitLines s).
Proof.
  pose proof (splitOn_not_nil LF s) as H. unfold splitLines.
  destruct (splitOn LF s); [done | simpl; lia].
Qed.

(** X1: [insertAtLine] with line 0 writes the new text, a "\n" and the
    old content; with a line number at or beyond the number of lines it
    writes the old content, a "\n" and the new text. *)
Theorem insertAtLine_prepends_or_appends
    (patch : string -> string -> string -> string -> string -> string -> string)
    (path newText : string) (st : State) (raw : string) :
  files st !! path = Some raw ->
  files (snd (insertAtLine patch path 0 newText st)) !! path
    = Some (newText +:+ nl +:+ raw) /\
  forall insertLine : Z,
    (Z.of_nat (length (splitLines raw)) <= insertLine)%Z ->
    files (snd (insertAtLine patch path insertLine newText st)) !! path
      = Some (raw +:+ nl +:+ newText).
Proof.
  intros Hraw. split.
  - rewrite (insertAtLine_run _ _ _ _ _ _ Hraw). simpl.
    rewrite lookup_insert_eq. f_equal. unfold insertLines. simpl.
    rewrite joinLines_cons by apply splitOn_not_nil.
    by rewrite joinLines_splitLines.
  - intros insertLine Hge.
    pose proof (length_splitLines_pos raw) as Hpos.
    rewrite (insertAtLine_run _ _ _ _ _ _ Hraw). simpl.
    rewrite lookup_insert_eq. f_equal. unfold insertLines.
    destruct (Z.eqb_spec insertLine 0) as [->|_]; [lia|].
    rewrite Z.min_r by done. unfold spliceAt, relativeStart, splice.
    destruct (Z.ltb_spec (Z.of_nat (length (splitLines raw))) 0); [lia|].
    rewrite Z.min_id, Nat2Z.id, firstn_all, Nat.add_0_r, drop_all.
    rewrite joinLines_app; [|apply splitOn_not_nil|done].
    by rewrite joinLines_splitLines.
Qed.

Lemma insertAtLine_prepends_or_appends_witness :
  let p := "/a/allowed/f.txt" in
  let st := initialState {[ p := "a" +:+ nl +:+ "b" ]} in
  files (snd (insertAtLine plainPatch p 0 "X" st)) !! p
    = Some ("X" +:+ nl +:+ ("a" +:+ nl +:+ "b")) /\
  files (snd (insertAtLine plainPatch p 7 "X" st)) !! p
    = Some (("a" +:+ nl +:+ "b") +:+ nl +:+ "X").
Proof.
  intros p st.
  destruct (insertAtLine_prepends_or_appends plainPatch p "X" st
              ("a" +:+ nl +:+ "b") eq_refl) as [H0 Hend].
  split; [exact H0|]. apply Hend. vm_compute. discriminate.
Defined.

(** X2: where the new line lands. For [1 <= insertLine <= number of lines]
    it becomes the line after line [insertLine]; for a negative
    [insertLine] it is placed before the last [-insertLine] lines (at the
    top when there are fewer). The old lines keep their order around it. *)
Theorem insertLines_position (raw newText : string) (insertLine : Z) (k : nat) :
  let lines := splitLines raw in
  ((1 <= insertLine <= Z.of_nat (length lines))%Z /\ k = Z.to_nat insertLine) \/
  ((insertLine < 0)%Z /\
   k = Z.to_nat (Z.max (Z.of_nat (length lines) + insertLine) 0)) ->
  insertLines raw insertLine newText = take k lines ++ newText :: drop k lines /\
  insertLines raw insertLine newText !! k = Some newText /\
  length (insertLines raw insertLine newText) = S (length lines).
Proof.
  intros lines Hk.
  assert (Hins : insertLines raw insertLine newText
                 = take k lines ++ newText :: drop k lines /\ k <= length lines).
  { unfold insertLines. fold lines. unfold spliceAt, relativeStart, splice.
    destruct Hk as [[Hn ->]|[Hn ->]].
    - destruct (Z.eqb_spec insertLine 0); [lia|].
      rewrite Z.min_l by lia.
      destruct (Z.ltb_spec insertLine 0); [lia|].
      rewrite Z.min_l by lia. rewrite Nat.add_0_r. split; [done | lia].
    - destruct (Z.eqb_spec insertLine 0); [lia|].
      rewrite Z.min_l by lia.
      destruct (Z.ltb_spec insertLine 0); [|lia].
      rewrite Nat.add_0_r. split; [done | lia]. }
  destruct Hins as [-> Hle]. split_and!; [done| |].
  - rewrite lookup_app_r by (rewrite length_take; lia).
    rewrite length_take, Nat.min_l by lia. by rewrite Nat.sub_diag.
  - rewrite length_app, length_take. simpl. rewrite length_drop. lia.
Qed.

Lemma insertLines_position_witness :
  insertLines ("a" +:+ nl +:+ "b" +:+ nl +:+ "c") 1 "X" = ["a"; "X"; "b"; "c"] /\
  insertLines ("a" +:+ nl +:+ "b" +:+ nl +:+ "c") (-1) "X" = ["a"; "b"; "X"; "c"].
Proof.
  split.
  - apply (insertLines_position ("a" +:+ nl +:+ "b" +:+ nl +:+ "c") "X" 1 1).
    left. vm_compute. repeat split; discriminate.
  - apply (insertLines_position ("a" +:+ nl +:+ "b" +:+ nl +:+ "c") "X" (-1) 2).
    right. vm_compute. repeat split.
Defined.

(** ** Undo, dry runs and failed edits *)

Section WideRuns.

Variable patch : string -> string -> Wide.text -> Wide.text -> string -> string -> Wide.text.

Lemma wide_insertAtLine_run (path : string) (insertLine : Z) (newText : Wide.text)
    (st : Wide.State) (bytes : list N) :
  Wide.disk st !! path = Some bytes ->
  let content := Utf8.decode bytes in
  let st1 := Wide.saveToHistory path content st in
  let modifiedContent := Wide.joinLines (Wide.insertLines content insertLine newText) in
  Wide.insertAtLine patch path insertLine newText st =
    if decide (path ∈ Wide.refused st) then (inl (Wide.FsFault path), st1)
    else
      (inr (Wide.fenced
              (Wide.createUnifiedDiff patch content modifiedContent path) []),
       {| Wide.disk := <[path := Utf8.encode modifiedContent]> (Wide.disk st);
          Wide.refused := Wide.refused st;
          Wide.editHistory := Wide.editHistory st1 |}).
Proof.
  intros Hd content st1 modifiedContent.
  unfold Wide.insertAtLine, Wide.readFile. rewrite Hd. fold content.
  cbv zeta. fold st1 modifiedContent. unfold Wide.writeFile. simpl.
  by destruct (decide (path ∈ Wide.refused st)).
Qed.

(** A dry run returns before anything is saved or written. *)
Lemma wide_applyFileEdits_dry (path : string) (edits : list Wide.Edit)
    (st : Wide.State) :
  Wide.applyFileEdits patch path edits true st =
    match Wide.disk st !! path with
    | None => (inl (Wide.FsFault path), st)
    | Some bytes =>
        let content := Wide.normalizeLineEndings (Utf8.decode bytes) in
        match Wide.applyEdits content edits with
        | inl e => (inl e, st)
        | inr modifiedContent =>
            (inr (Wide.fenced
                    (Wide.createUnifiedDiff patch content modifiedContent path) []),
             st)
        end
    end.
Proof.
  unfold Wide.applyFileEdits, Wide.readFile.
  destruct (Wide.disk st !! path) as [bytes|]; [|done]. cbv zeta.
  by destruct (Wide.applyEdits _ edits).
Qed.

Lemma wide_applyFileEdits_missing (path : string) (edits : list Wide.Edit)
    (dryRun : bool) (st : Wide.State) :
  Wide.disk st !! path = None ->
  Wide.applyFileEdits patch path edits dryRun st = (inl (Wide.FsFault path), st).
Proof. intros Hd. unfold Wide.applyFileEdits, Wide.readFile. by rewrite Hd. Qed.

End WideRuns.

(** X3: when [insertAtLine] succeeds, a following [undo_edit] on the same
    path succeeds too and writes the text that was read, "\r\n" line endings
    included: the file holds that text encoded again, which is the bytes it
    had before the insertion whenever those were valid UTF-8, and no other
    file has changed. *)
Theorem undo_after_insert_restores_bytes
    (patch : string -> string -> Wide.text -> Wide.text -> string -> string -> Wide.text)
    (path requested : string) (newText : Wide.text) (insertLine : Z)
    (st st1 : Wide.State) (bytes : list N) (diff : Wide.text) :
  Wide.disk st !! path = Some bytes ->
  Wide.insertAtLine patch path insertLine newText st = (inr diff, st1) ->
  exists report st2,
    Wide.undoEdit patch path requested st1 = (inr report, st2) /\
    Wide.disk st2 = <[path := Utf8.encode (Utf8.decode bytes)]> (Wide.disk st) /\
    (Utf8.encode (Utf8.decode bytes) = bytes -> Wide.disk st2 = Wide.disk st).
Proof.
  intros Hd Hrun.
  rewrite (wide_insertAtLine_run _ _ _ _ _ _ Hd) in Hrun.
  destruct (decide (path ∈ Wide.refused st)) as [|Hw]; [done|].
  injection Hrun as _ <-.
  destruct (wide_last_pushBounded (default [] (Wide.editHistory st !! path))
              (Utf8.decode bytes)) as [below Hbelow].
  match goal with |- context [Wide.undoEdit _ _ _ ?s] => set (st1 := s) end.
  destruct (wide_undoEdit_run patch path requested st1 below (Utf8.decode bytes)
              (Utf8.encode (Wide.joinLines
                 (Wide.insertLines (Utf8.decode bytes) insertLine newText))))
    as [report Hundo].
  - subst st1. simpl. by rewrite lookup_insert_eq, Hbelow.
  - subst st1. simpl. by rewrite lookup_insert_eq.
  - exact Hw.
  - eexists _, _. split; [exact Hundo|]. subst st1. simpl.
    rewrite insert_insert_eq. split; [done|].
    intros ->. by apply insert_id.
Qed.

Lemma undo_after_insert_restores_bytes_witness :
  let p := "/a/allowed/f.txt" in
  let bytes := [97; 13; 10; 98]%N in
  let st := diskWith p bytes in
  exists report st2,
    Wide.undoEdit plainPatchWide p "f.txt"
      (snd (Wide.insertAtLine plainPatchWide p 1 (Wide.ofString "X") st))
      = (inr report, st2) /\
    Wide.disk st2 = <[p := Utf8.encode (Utf8.decode bytes)]> (Wide.disk st) /\
    (Utf8.encode (Utf8.decode bytes) = bytes -> Wide.disk st2 = Wide.disk st).
Proof.
  intros p bytes st.
  eapply (undo_after_insert_restores_bytes plainPatchWide p "f.txt"
            (Wide.ofString "X") 1 st _ bytes).
  - reflexivity.
  - vm_compute. reflexivity.
Defined.



(** X5: a dry run of [applyFileEdits] changes neither a file nor the
    history. It returns what the real run returns, with one exception: where
    the write of the real run is refused, the dry run still returns the
    diff. *)
Theorem dry_run_changes_nothing
    (patch : string -> string -> Wide.text -> Wide.text -> string -> string -> Wide.text)
    (path : string) (edits : list Wide.Edit) (st : Wide.State) :
  let dry := Wide.applyFileEdits patch path edits true st in
  let real := Wide.applyFileEdits patch path edits false st in
  snd dry = st /\
  (path ∉ Wide.refused st -> fst real = fst dry) /\
  (forall e, fst dry = inl e -> fst real = inl e) /\
  (forall diff, fst dry = inr diff ->
     fst real = if decide (path ∈ Wide.refused st)
                then inl (Wide.FsFault path) else inr diff).
Proof.
  intros dry real. subst dry real. rewrite wide_applyFileEdits_dry.
  destruct (Wide.disk st !! path) as [bytes|] eqn:Hd.
  - rewrite (wide_applyFileEdits_run _ _ _ _ _ Hd). cbv zeta.
    destruct (Wide.applyEdits _ edits) as [e|m]; simpl.
    + split_and!; [done|done|done|]. intros diff [=].
    + destruct (decide (path ∈ Wide.refused st)); simpl;
        split_and!; try done; by intros ? [= <-].
  - rewrite (wide_applyFileEdits_missing _ _ _ _ _ Hd). simpl.
    split_and!; [done|done|done|]. intros diff [=].
Qed.

(** At a file that cannot be written the dry run returns the diff and the
    real run fails. *)
Lemma dry_run_changes_nothing_witness :
  let p := "/a/allowed/f.txt" in
  let st := {| Wide.disk := {[ p := [102; 111; 111]%N ]};
               Wide.refused := {[ p ]}; Wide.editHistory := ∅ |} in
  snd (Wide.applyFileEdits plainPatchWide p [fooToBar] true st) = st /\
  (exists diff, fst (Wide.applyFileEdits plainPatchWide p [fooToBar] true st)
                  = inr diff) /\
  fst (Wide.applyFileEdits plainPatchWide p [fooToBar] false st)
    = inl (Wide.FsFault p).
Proof.
  intros p st.
  destruct (dry_run_changes_nothing plainPatchWide p [fooToBar] st)
    as (H1 & _ & _ & H4).
  split_and!; [exact H1 | by eexists |].
  rewrite (H4 _ eq_refl). reflexivity.
Defined.

(** X6: an edit request that fails with [NoMatchFound] has already saved
    its snapshot: the file is unchanged and the stack of the path has the
    normalized content on top. A following [undo_edit] takes it off and
    writes it to the file; where that write is refused, the request fails,
    the file stays and the snapshot is gone from the stack. *)
Theorem failed_edit_still_saves_snapshot
    (patch : string -> string -> Wide.text -> Wide.text -> string -> string -> Wide.text)
    (path requested : string) (edits : list Wide.Edit) (st : Wide.State)
    (bytes : list N) (e : Wide.Error) :
  Wide.disk st !! path = Some bytes ->
  let content := Wide.normalizeLineEndings (Utf8.decode bytes) in
  let stack := Wide.pushBounded (default [] (Wide.editHistory st !! path)) content in
  Wide.applyEdits content edits = inl e ->
  let r := Wide.applyFileEdits patch path edits false st in
  let undo := Wide.undoEdit patch path requested (snd r) in
  fst r = inl e /\
  Wide.disk (snd r) = Wide.disk st /\
  Wide.editHistory (snd r) !! path = Some stack /\
  last stack = Some content /\
  Wide.editHistory (snd undo) !! path = Some (removelast stack) /\
  (path ∉ Wide.refused st ->
   (exists report, fst undo = inr report) /\
   Wide.disk (snd undo) = <[path := Utf8.encode content]> (Wide.disk st)) /\
  (path ∈ Wide.refused st ->
   fst undo = inl (Wide.FsFault path) /\ Wide.disk (snd undo) = Wide.disk st).
Proof.
  intros Hd content stack Hfail r undo. subst r undo.
  rewrite (wide_applyFileEdits_run _ _ _ _ _ Hd). fold content. cbv zeta.
  rewrite Hfail. simpl. fold stack. rewrite lookup_insert_eq.
  destruct (wide_last_pushBounded (default [] (Wide.editHistory st !! path))
              content) as [below Hbelow].
  fold stack in Hbelow.
  set (st1 := Wide.saveToHistory path content st).
  assert (Hh : Wide.editHistory st1 !! path = Some (below ++ [content])).
  { subst st1. simpl. fold stack. by rewrite lookup_insert_eq, Hbelow. }
  assert (Hd1 : Wide.disk st1 !! path = Some bytes) by done.
  rewrite Hbelow, last_snoc, removelast_last.
  split_and!; [done..| | |].
  - destruct (decide (path ∈ Wide.refused st)) as [Hw|Hw].
    + rewrite (wide_undoEdit_refused patch path requested st1 below content bytes
                 Hh Hd1 Hw). simpl. by rewrite lookup_insert_eq.
    + destruct (wide_undoEdit_run patch path requested st1 below content bytes
                  Hh Hd1 Hw) as [report ->]. simpl. by rewrite lookup_insert_eq.
  - intros Hw.
    destruct (wide_undoEdit_run patch path requested st1 below content bytes
                Hh Hd1 Hw) as [report ->]. simpl. split; [by eexists|done].
  - intros Hw.
    by rewrite (wide_undoEdit_refused patch path requested st1 below content bytes
                  Hh Hd1 Hw).
Qed.

Lemma failed_edit_still_saves_snapshot_witness :
  let p := "/a/allowed/f.txt" in
  let st := {| Wide.disk := {[ p := [97; 13; 10; 98]%N ]};
               Wide.refused := {[ p ]}; Wide.editHistory := ∅ |} in
  let r := Wide.applyFileEdits plainPatchWide p [fooToBar] false st in
  let undo := Wide.undoEdit plainPatchWide p "f.txt" (snd r) in
  fst r = inl (Wide.NoMatchFound (Wide.ofString "foo")) /\
  Wide.editHistory (snd r) !! p = Some [[97; 10; 98]%N] /\
  fst undo = inl (Wide.FsFault p) /\
  Wide.editHistory (snd undo) !! p = Some [].
Proof.
  intros p st r undo.
  destruct (failed_edit_still_saves_snapshot plainPatchWide p "f.txt" [fooToBar]
              st [97; 13; 10; 98]%N (Wide.NoMatchFound (Wide.ofString "foo"))
              eq_refl eq_refl) as (H1 & _ & H3 & _ & H5 & _ & H7).
  split_and!; [exact H1 | exact H3 | | exact H5].
  apply H7. change (p ∈ ({[ p ]} : gset string)).
  apply elem_of_singleton_2. reflexivity.
Defined.

(** X7: the ways [undo_edit] fails. Without a stack, or with an empty one,
    it fails with [NoHistory] and changes nothing. With a snapshot but no
    file to read it fails with the file-system error, and the snapshot has
    already been taken off the stack. *)
Theorem undoEdit_failures
    (patch : string -> string -> string -> string -> string -> string -> string)
    (validPath requested : string) (st : State) :
  (editHistory st !! validPath = None \/ editHistory st !! validPath = Some [] ->
   undoEdit patch validPath requested st = (inl (NoHistory requested), st)) /\
  (forall history previous,
     editHistory st !! validPath = Some (history ++ [previous]) ->
     files st !! validPath = None ->
     undoEdit patch validPath requested st
       = (inl (FsFault validPath),
          {| files := files st;
             editHistory := <[validPath := history]> (editHistory st) |})).
Proof.
  split.
  - apply undoEdit_no_history.
  - intros history previous Hh Hf. unfold undoEdit, bind, readFile.
    rewrite Hh, last_snoc, removelast_last. simpl. by rewrite Hf.
Qed.

Lemma undoEdit_failures_witness :
  let st := {| files := ∅;
               editHistory := {[ "/a/allowed/f.txt" := [] ++ ["old"] ]} |} in
  undoEdit plainPatch "/a/allowed/f.txt" "f.txt" (initialState ∅)
    = (inl (NoHistory "f.txt"), initialState ∅) /\
  fst (undoEdit plainPatch "/a/allowed/f.txt" "f.txt" st)
    = inl (FsFault "/a/allowed/f.txt") /\
  editHistory (snd (undoEdit plainPatch "/a/allowed/f.txt" "f.txt" st))
    !! "/a/allowed/f.txt" = Some [].
Proof.
  intros st. split_and!.
  - apply (proj1 (undoEdit_failures plainPatch "/a/allowed/f.txt" "f.txt"
                    (initialState ∅))). left. reflexivity.
  - rewrite (proj2 (undoEdit_failures plainPatch "/a/allowed/f.txt" "f.txt" st)
               [] "old" eq_refl eq_refl). reflexivity.
  - rewrite (proj2 (undoEdit_failures plainPatch "/a/allowed/f.txt" "f.txt" st)
               [] "old" eq_refl eq_refl). reflexivity.
Defined.

(** ** Requests on different paths *)

Section FrameFacts.

Variable patch : string -> string -> string -> string -> string -> string -> string.

Lemma runOp_other_stack (op : Op) (st : State) (q : string) :
  opPath op <> q ->
  editHistory (snd (runOp patch op st)) !! q = editHistory st !! q.
Proof.
  intros Hq.
  destruct op as [path edits dryRun|path line text|path|path content];
    simpl in Hq; simpl.
  - destruct (files st !! path) as [raw|] eqn:Hraw.
    + rewrite (applyFileEdits_run _ _ _ _ _ _ Hraw).
      destruct (applyEdits _ edits), dryRun; simpl; unfold pushed;
        by rewrite ?lookup_insert_ne by done.
    + by rewrite applyFileEdits_missing.
  - destruct (files st !! path) as [raw|] eqn:Hraw.
    + rewrite (insertAtLine_run _ _ _ _ _ _ Hraw). simpl. unfold pushed.
      by rewrite !lookup_insert_ne by done.
    + by rewrite insertAtLine_missing.
  - unfold undoEdit.
    destruct (editHistory st !! path) as [history|] eqn:Hh; [|done].
    destruct (last history) as [previous|]; [|done].
    unfold bind, readFile, writeFile. simpl.
    destruct (files st !! path); simpl; by rewrite ?lookup_insert_ne by done.
  - unfold bind, writeFile. by simpl.
Qed.

End FrameFacts.

(** X8: the undo stacks are kept by resolved path, as that path is
    written: after any sequence of edits, insertions, undos and creations
    whose resolved paths differ from [q], the stack of [q] is what it was. *)
Theorem runOps_leave_other_stacks
    (patch : string -> string -> string -> string -> string -> string -> string)
    (ops : list Op) (st : State) (q : string) :
  Forall (fun op => opPath op <> q) ops ->
  editHistory (runOps patch ops st) !! q = editHistory st !! q.
Proof.
  revert st; induction ops as [|op ops IH]; intros st Hops; [done|].
  apply Forall_cons in Hops as [Hop Hops]. simpl.
  rewrite (IH (snd (runOp patch op st)) Hops).
  by apply runOp_other_stack.
Qed.

Lemma runOps_leave_other_stacks_witness :
  let st := {| files := {[ "/a/allowed/f.txt" := "f"; "/a/allowed/g.txt" := "g" ]};
               editHistory := {[ "/a/allowed/g.txt" := ["g0"] ]} |} in
  let ops := [ OpInsert "/a/allowed/f.txt" 0 "X"; OpUndo "/a/allowed/f.txt";
               OpCreate "/a/allowed/h.txt" "h" ] in
  editHistory (runOps plainPatch ops st) !! "/a/allowed/g.txt" = Some ["g0"].
Proof.
  intros st ops.
  rewrite (runOps_leave_other_stacks plainPatch ops st "/a/allowed/g.txt").
  - reflexivity.
  - repeat constructor; discriminate.
Defined.

(** ** One request with several edits, or several requests *)



(** ** Line endings, again *)

Lemma replaceAllCRLF_cons (c : ascii) (rest : string) :
  replaceAllCRLF (String c rest)
    = if Ascii.eqb c CR then
        match rest with
        | String d rest' =>
            if Ascii.eqb d LF then String LF (replaceAllCRLF rest')
            else String c (replaceAllCRLF rest)
        | "" => String c (replaceAllCRLF rest)
        end
      else String c (replaceAllCRLF rest).
Proof. reflexivity. Qed.

Lemma length_replaceAllCRLF_aux (s : string) :
  String.length (replaceAllCRLF s) <= String.length s /\
  forall c, String.length (replaceAllCRLF (String c s)) <= S (String.length s).
Proof.
  induction s as [|d s [IH1 IH2]].
  - split; [done|]. intros c. rewrite replaceAllCRLF_cons.
    destruct (Ascii.eqb c CR); simpl; lia.
  - split; [apply IH2|]. intros c. rewrite replaceAllCRLF_cons.
    destruct (Ascii.eqb c CR); [destruct (Ascii.eqb d LF)|];
      cbn [String.length]; pose proof (IH2 d); lia.
Qed.

Lemma includes_true_cons (c : ascii) (s needle : string) :
  includes (String c s) needle = true ->
  String.prefix needle (String c s) = true \/ includes s needle = true.
Proof.
  unfold includes. rewrite indexOf_eq.
  destruct (String.prefix needle (String c s)); [by left|].
  destruct (indexOf needle s); [by right | done].
Qed.

Lemma length_replaceAllCRLF_lt (s : string) :
  includes s crlf = true ->
  String.length (replaceAllCRLF s) < String.length s.
Proof.
  induction s as [|c s IH]; [done|]. intros H.
  apply includes_true_cons in H as [H|H].
  - apply prefix_true in H. change (JS.dropS (String.length crlf) (String c s))
      with (dropS 1 s) in H.
    destruct s as [|d s]; [done|]. injection H as -> ->.
    rewrite replaceAllCRLF_cons. simpl.
    pose proof (proj1 (length_replaceAllCRLF_aux s)). lia.
  - specialize (IH H). rewrite replaceAllCRLF_cons.
    destruct (Ascii.eqb c CR).
    + destruct s as [|d s]; [done|].
      destruct (Ascii.eqb d LF); cbn [String.length] in *; [|lia].
      pose proof (proj1 (length_replaceAllCRLF_aux s)). lia.
    + cbn [String.length]. lia.
Qed.

(** X10: [normalizeLineEndings] never lengthens a text, and leaves it
    unchanged exactly when it contains no "\r\n". *)
Theorem normalizeLineEndings_fixpoints (text : string) :
  String.length (normalizeLineEndings text) <= String.length text /\
  (normalizeLineEndings text = text <-> includes text crlf = false).
Proof.
  split; [apply length_replaceAllCRLF_aux|]. split.
  - intros Heq. destruct (includes text crlf) eqn:E; [|done].
    apply length_replaceAllCRLF_lt in E. unfold normalizeLineEndings in Heq.
    rewrite Heq in E. lia.
  - apply normalizeLineEndings_id.
Qed.

(** ** The fence, again *)

Lemma fenceLoop_passed (fuel numBackticks n : nat) (diff : string) :
  numBackticks <= n < fenceLoop fuel numBackticks diff ->
  includes diff (repeatChar "`" n) = true.
Proof.
  revert numBackticks; induction fuel as [|fuel IH]; intros m Hn; simpl in Hn.
  - lia.
  - destruct (includes diff (repeatChar "`" m)) eqn:E; [|lia].
    destruct (decide (n = m)) as [->|Hne]; [done|].
    apply (IH (S m)). lia.
Qed.

(** X11: the fence around a diff is the shortest run of at least three
    backticks that does not occur in the diff; the reply opens with it and
    the word "diff". *)
Theorem fence_is_shortest_free_run (diff trailer : string) :
  3 <= numBackticksFor diff /\
  includes diff (repeatChar "`" (numBackticksFor diff)) = false /\
  (forall n, 3 <= n < numBackticksFor diff ->
             includes diff (repeatChar "`" n) = true) /\
  startsWith (fenced diff trailer)
    (repeatChar "`" (numBackticksFor diff) +:+ "diff" +:+ nl) = true.
Proof.
  destruct (numBackticksFor_spec diff) as [H3 Hfree].
  split_and!; [done|done| |].
  - intros n Hn. by apply (fenceLoop_passed (S (String.length diff)) 3).
  - unfold startsWith, fenced. cbv zeta.
    set (fence := repeatChar "`" (numBackticksFor diff)).
    rewrite <- (app_assoc_s "diff" nl), <- (app_assoc_s fence ("diff" +:+ nl)).
    apply prefix_app.
Qed.

(** ** When an edit fails *)

(** X12: [applyEdits] fails exactly at the first edit that has neither a
    literal occurrence nor a matching window in the buffer left by the
    edits before it, and the error carries the [oldText] of that edit as
    the caller wrote it. *)
Theorem applyEdits_fails_at_first_unmatched (buffer : string)
    (edits : list Edit) (err : Error) :
  applyEdits buffer edits = inl err <->
  exists before edit after current,
    edits = before ++ edit :: after /\
    applyEdits buffer before = inr current /\
    ~ occursIn (normalizeLineEndings (oldText edit)) current /\
    (forall i, ~ windowMatches (splitLines (normalizeLineEndings (oldText edit)))
                               (splitLines current) i) /\
    err = NoMatchFound (oldText edit).
Proof.
  split.
  - revert buffer; induction edits as [|e edits IH]; intros buffer; [done|].
    simpl. destruct (applyEdit buffer e) as [err'|[pass b]] eqn:He.
    + intros [= ->]. exists [], e, edits, buffer. unfold applyEdit in He.
      destruct (includes buffer _) eqn:Hinc; [done|].
      destruct (findWindow _ _) eqn:Hwin; [done|]. injection He as <-.
      split_and!; [done|done| | |done].
      * by apply not_occursIn_includes.
      * by apply findWindow_None.
    + intros H. destruct (IH b H) as (before & edit & after & cur & -> & Hb & ?).
      exists (e :: before), edit, after, cur. split; [done|]. simpl.
      by rewrite He.
  - intros (before & edit & after & cur & -> & Hb & Hocc & Hwin & ->).
    rewrite applyEdits_app, Hb. simpl.
    by rewrite (applyEdit_no_match cur edit Hocc Hwin).
Qed.

Lemma applyEdits_fails_at_first_unmatched_witness :
  exists before edit after current,
    [ {| oldText := "a"; newText := "x" |}; {| oldText := "a"; newText := "y" |} ]
      = before ++ edit :: after /\
    applyEdits "abc" before = inr current /\
    NoMatchFound "a" = NoMatchFound (oldText edit).
Proof.
  destruct (proj1 (applyEdits_fails_at_first_unmatched "abc"
      [ {| oldText := "a"; newText := "x" |}; {| oldText := "a"; newText := "y" |} ]
      (NoMatchFound "a")) eq_refl)
    as (before & edit & after & current & H1 & H2 & _ & _ & H5).
  exists before, edit, after, current. by split_and!.
Defined.

(** X13: an edit with an empty [oldText] never fails: the empty text occurs
    at position 0, so the exact pass puts the expansion of [newText] in
    front of the buffer, and [newText] itself when it has no [$]. *)
Theorem applyEdit_empty_oldText (buffer new : string) :
  applyEdit buffer {| oldText := ""; newText := new |}
    = inr (ExactPass,
           getSubstitution "" "" buffer (normalizeLineEndings new) +:+ buffer) /\
  (includes (normalizeLineEndings new) "$" = false ->
   applyEdit buffer {| oldText := ""; newText := new |}
     = inr (ExactPass, normalizeLineEndings new +:+ buffer)).
Proof.
  assert (H : applyEdit buffer {| oldText := ""; newText := new |}
    = inr (ExactPass,
           getSubstitution "" "" buffer (normalizeLineEndings new) +:+ buffer)).
  { unfold applyEdit, includes, replace. simpl.
    rewrite indexOf_eq. by destruct buffer. }
  split; [done|]. intros Hd. rewrite H.
  by rewrite getSubstitution_no_dollar.
Qed.

Lemma applyEdit_empty_oldText_witness :
  applyEdit "abc" {| oldText := ""; newText := "x" |} = inr (ExactPass, "xabc").
Proof.
  exact (proj2 (applyEdit_empty_oldText "abc" "x") eq_refl).
Defined.

(** ** What the fuzzy pass compares *)

Lemma isMatch_trim (old old' window window' : list string) :
  trim <$> old = trim <$> old' ->
  trim <$> window = trim <$> window' ->
  isMatch old window = isMatch old' window'.
Proof.
  revert old' window window'; induction old as [|o old IH];
    intros [|o' old'] window window' Ho Hw; try done.
  injection Ho as Ho Hold.
  destruct window as [|w window], window' as [|w' window']; try done.
  injection Hw as Hw Hwin. simpl. rewrite Ho, Hw. f_equal. by apply IH.
Qed.

(** X14: the window the fuzzy pass finds depends on the old lines and on
    the buffer lines only through their trimmed forms: changing leading or
    trailing whitespace on either side does not change it. *)
Theorem findWindow_ignores_outer_whitespace
    (oldLines oldLines' contentLines contentLines' : list string) :
  trim <$> oldLines = trim <$> oldLines' ->
  trim <$> contentLines = trim <$> contentLines' ->
  findWindow oldLines contentLines = findWindow oldLines' contentLines'.
Proof.
  intros Ho Hc. unfold findWindow.
  assert (Hlo : length oldLines = length oldLines')
    by (rewrite <- (length_fmap trim oldLines), Ho; apply length_fmap).
  assert (Hlc : length contentLines = length contentLines')
    by (rewrite <- (length_fmap trim contentLines), Hc; apply length_fmap).
  rewrite Hlo, Hlc.
  induction (windowStarts (length contentLines') (length oldLines')) as [|i l IH];
    [done|].
  simpl. rewrite IH.
  replace (matchesAt oldLines contentLines i)
    with (matchesAt oldLines' contentLines' i); [done|].
  unfold matchesAt, slice. rewrite Hlo. symmetry. apply isMatch_trim; [done|].
  by rewrite !fmap_take, !fmap_drop, Hc.
Qed.

Lemma findWindow_ignores_outer_whitespace_witness :
  findWindow ["foo"; "bar"] ["x"; "  foo"; "bar  "]
    = findWindow ["  foo"; "bar "] ["x"; "foo"; "bar"].
Proof.
  apply findWindow_ignores_outer_whitespace; reflexivity.
Defined.

(** ** What [validatePath] returns *)

(** X15: a path returned by [validatePath] is the absolute form of the
    request or its real path, and its normalized form starts with one of
    the allowed directories. *)
Theorem validatePath_result_is_checked (env : NodeEnv) (args : list string)
    (requestedPath result : string) :
  validatePath env args requestedPath = inr result ->
  someStartsWith env args (normalizePath result) = true /\
  someStartsWith env args (normalizePath (absoluteOf env requestedPath)) = true /\
  (realpath env (absoluteOf env requestedPath) = Some result \/
   result = absoluteOf env requestedPath).
Proof.
  unfold validatePath, realPathCheck, parentCheck.
  destruct (someStartsWith env args (normalizePath (absoluteOf env requestedPath)))
    eqn:Habs; simpl; [|done].
  destruct (realpath env (absoluteOf env requestedPath)) as [rp|] eqn:Hrp.
  - destruct (someStartsWith env args (normalizePath rp)) eqn:Hreal; simpl.
    + intros [= <-]. split_and!; [done|done|by left].
    + destruct (realpath env (Path.dirname (absoluteOf env requestedPath)))
        as [pp|]; [|done].
      destruct (someStartsWith env args (normalizePath pp)); simpl; [|done].
      intros [= <-]. split_and!; [done|done|by right].
  - destruct (realpath env (Path.dirname (absoluteOf env requestedPath)))
      as [pp|]; [|done].
    destruct (someStartsWith env args (normalizePath pp)); simpl; [|done].
    intros [= <-]. split_and!; [done|done|by right].
Qed.

Lemma validatePath_result_is_checked_witness :
  someStartsWith demoEnv demoArgs (normalizePath "/a/allowed/f.txt") = true /\
  (realpath demoEnv (absoluteOf demoEnv "f.txt") = Some "/a/allowed/f.txt" \/
   "/a/allowed/f.txt" = absoluteOf demoEnv "f.txt").
Proof.
  destruct (validatePath_result_is_checked demoEnv demoArgs "f.txt"
              "/a/allowed/f.txt" eq_refl) as (H1 & _ & H3).
  split; [exact H1 | exact H3].
Defined.

(** X16: [validatePath] fails in two ways only. It fails with "path outside
    allowed directories" exactly when the normalized absolute path starts
    with no allowed directory, whatever the file system holds; every other
    failure is "Parent directory does not exist", naming the directory of
    the absolute path. *)
Theorem validatePath_error_kinds (env : NodeEnv) (args : list string)
    (requestedPath : string) :
  (validatePath env args requestedPath = inl (AccessDenied PathOutside) <->
   someStartsWith env args (normalizePath (absoluteOf env requestedPath)) = false) /\
  (forall e, validatePath env args requestedPath = inl e ->
     e = AccessDenied PathOutside \/
     e = ParentNotFound (Path.dirname (absoluteOf env requestedPath))).
Proof.
  split; [|apply validatePath_errors].
  unfold validatePath.
  destruct (someStartsWith env args (normalizePath (absoluteOf env requestedPath)));
    simpl; [|done].
  split; [|done].
  destruct (realPathCheck _ _ _); [|done].
  by destruct (parentCheck _ _ _ _).
Qed.

Lemma validatePath_error_kinds_witness :
  validatePath demoEnv demoArgs "/etc/passwd" = inl (AccessDenied PathOutside) /\
  (ParentNotFound "/a/allowed/nodir" = AccessDenied PathOutside \/
   ParentNotFound "/a/allowed/nodir"
     = ParentNotFound (Path.dirname (absoluteOf demoEnv "nodir/new.txt"))).
Proof.
  split.
  - apply (proj1 (validatePath_error_kinds demoEnv demoArgs "/etc/passwd")).
    reflexivity.
  - apply (proj2 (validatePath_error_kinds demoEnv demoArgs "nodir/new.txt")).
    reflexivity.
Defined.

(** ** The [view] tool *)

Lemma relativeStart_nonneg (i : nat) (len : nat) :
  relativeStart (Z.of_nat i) len = Nat.min i len.
Proof.
  unfold relativeStart. destruct (Z.ltb_spec (Z.of_nat i) 0); lia.
Qed.

(** The lines selected when [stop] is not negative. *)
Lemma selectedLines_nonneg_stop (content : string) (start stop : Z) :
  (0 <= stop)%Z ->
  let lines := splitLines content in
  let first := Z.to_nat (Z.max 1 start) in
  let last := Nat.min (Z.to_nat stop) (length lines) in
  selectedLines content start stop
    = take (last - (first - 1)) (drop (first - 1) lines).
Proof.
  intros Hstop lines first last.
  unfold selectedLines, sliceRel, slice. fold lines.
  destruct (Z.eqb_spec stop (-1)); [lia|].
  replace (Z.max 0 (start - 1)) with (Z.of_nat (first - 1)) by lia.
  replace (Z.min (Z.of_nat (length lines)) stop) with (Z.of_nat last) by lia.
  rewrite !relativeStart_nonneg.
  replace (Nat.min last (length lines)) with last by lia.
  destruct (decide (first - 1 <= length lines)).
  - by rewrite (Nat.min_l (first - 1)) by lia.
  - rewrite (Nat.min_r (first - 1)) by lia.
    replace (last - length lines) with 0 by lia.
    replace (last - (first - 1)) with 0 by lia. done.
Qed.

(** X17: for [1 <= start <= stop <= number of lines], [view_range =
    [start, stop]] selects the lines [start] to [stop], counted from 1 and
    both included; a [start] below 1 counts as 1 and a [stop] beyond the
    last line as the last line. *)
Theorem selectedLines_inclusive_range (content : string) (start stop : Z) :
  let lines := splitLines content in
  (0 <= stop)%Z ->
  let first := Z.to_nat (Z.max 1 start) in
  let last := Nat.min (Z.to_nat stop) (length lines) in
  selectedLines content start stop = take (last - (first - 1)) (drop (first - 1) lines) /\
  length (selectedLines content start stop) = last - (first - 1) /\
  forall i, i < last - (first - 1) ->
    selectedLines content start stop !! i = lines !! (first - 1 + i).
Proof.
  intros lines Hstop first last.
  pose proof (selectedLines_nonneg_stop content start stop Hstop) as Hsel.
  cbv zeta in Hsel. fold lines first last in Hsel.
  rewrite Hsel. split_and!; [done| |].
  - rewrite length_take, length_drop. lia.
  - intros i Hi. rewrite lookup_take_lt by done. by rewrite lookup_drop.
Qed.

Lemma selectedLines_inclusive_range_witness :
  selectedLines ("a" +:+ nl +:+ "b" +:+ nl +:+ "c" +:+ nl +:+ "d") 2 3 = ["b"; "c"].
Proof.
  apply (selectedLines_inclusive_range
           ("a" +:+ nl +:+ "b" +:+ nl +:+ "c" +:+ nl +:+ "d") 2 3).
  discriminate.
Defined.

(** X18: [view] returns the whole content when no range is given, when the
    range does not have two entries, and when the range starts at or before
    line 1 and ends at -1 or at or after the last line. *)
Theorem viewFile_whole_content (content : string) :
  viewFile content None = content /\
  (forall range, length range <> 2 -> viewFile content (Some range) = content) /\
  (forall start stop,
     (start <= 1)%Z ->
     (stop = -1 \/ Z.of_nat (length (splitLines content)) <= stop)%Z ->
     viewFile content (Some [start; stop]) = content).
Proof.
  split_and!; [done| |].
  - intros [|a [|b [|c range]]] Hlen; simpl in *; done.
  - intros start stop Hstart Hstop. unfold viewFile, selectedLines, sliceRel, slice.
    set (lines := splitLines content).
    assert (Hend : (if (stop =? -1)%Z then Z.of_nat (length lines)
                    else Z.min (Z.of_nat (length lines)) stop)
                   = Z.of_nat (length lines)).
    { destruct (Z.eqb_spec stop (-1)); [done|]. subst lines. lia. }
    rewrite Hend. replace (Z.max 0 (start - 1)) with (Z.of_nat 0) by lia.
    rewrite !relativeStart_nonneg. simpl. rewrite Nat.min_id, Nat.sub_0_r.
    rewrite firstn_all. apply joinLines_splitLines.
Qed.

Lemma viewFile_whole_content_witness :
  viewFile ("a" +:+ nl +:+ "b") (Some [1; -1]%Z) = "a" +:+ nl +:+ "b" /\
  viewFile ("a" +:+ nl +:+ "b") (Some [1; 2; 3]%Z) = "a" +:+ nl +:+ "b".
Proof.
  destruct (viewFile_whole_content ("a" +:+ nl +:+ "b")) as (_ & Hlen & Hall).
  split.
  - apply Hall; [lia | left; reflexivity].
  - apply Hlen. simpl. lia.
Defined.

(** X19: the edges of a range. A range that ends before it starts gives
    the empty text. An end below -1 is taken from the end of the file:
    with [start <= 1] the last [-stop] lines are left out. *)
Theorem viewFile_range_edges (content : string) (start stop : Z) :
  let lines := splitLines content in
  ((0 <= stop)%Z -> (stop < start)%Z ->
   viewFile content (Some [start; stop]) = "") /\
  ((stop < -1)%Z -> (start <= 1)%Z ->
   selectedLines content start stop
     = take (length lines - Z.to_nat (- stop)) lines).
Proof.
  intros lines. split.
  - intros H0 Hlt. unfold viewFile.
    rewrite (selectedLines_nonneg_stop content start stop H0).
    fold lines. replace (_ - _) with 0 by lia. done.
  - intros Hneg Hstart. unfold selectedLines, sliceRel, slice. fold lines.
    destruct (Z.eqb_spec stop (-1)); [lia|].
    rewrite Z.min_r by lia. replace (Z.max 0 (start - 1)) with (Z.of_nat 0) by lia.
    rewrite relativeStart_nonneg. simpl. rewrite Nat.sub_0_r.
    unfold relativeStart. destruct (Z.ltb_spec stop 0); [|lia].
    f_equal. lia.
Qed.

Lemma viewFile_range_edges_witness :
  viewFile ("a" +:+ nl +:+ "b" +:+ nl +:+ "c") (Some [3; 2]%Z) = "" /\
  selectedLines ("a" +:+ nl +:+ "b" +:+ nl +:+ "c") 1 (-2) = ["a"].
Proof.
  destruct (viewFile_range_edges ("a" +:+ nl +:+ "b" +:+ nl +:+ "c") 3 2) as [H1 _].
  destruct (viewFile_range_edges ("a" +:+ nl +:+ "b" +:+ nl +:+ "c") 1 (-2)) as [_ H2].
  split.
  - apply H1; lia.
  - apply H2; lia.
Defined.

(** ** [searchFiles] *)

Section SearchFacts.

Variable env : NodeEnv.
Variable args : list string.
Variable minimatch : string -> string -> bool.
Variable relative : string -> string -> string.
Variable rootPath : string.
Variable pattern : string.
Variable excludePatterns : list string.

Local Abbreviation search :=
  (searchEntry env args minimatch relative rootPath pattern excludePatterns).
Local Abbreviation reached :=
  (Reached env args minimatch relative rootPath excludePatterns).

Lemma Dirent_nested_ind (P : Dirent -> Prop) :
  (forall name, P (FileEntry name)) ->
  (forall name, P (DirEntry name None)) ->
  (forall name entries, Forall P entries -> P (DirEntry name (Some entries))) ->
  forall entry, P entry.
Proof.
  intros Hfile Hnone Hdir. fix IH 1. intros [name|name [entries|]].
  - apply Hfile.
  - apply Hdir. induction entries as [|e entries IHe]; constructor.
    + apply IH.
    + apply IHe.
  - apply Hnone.
Qed.

Lemma searchEntry_eq (currentPath : string) (entry : Dirent) :
  search currentPath entry =
    let fullPath := Path.join [currentPath; direntName entry] in
    match validatePath env args fullPath with
    | inl _ => []
    | inr _ =>
        if shouldExclude minimatch relative rootPath excludePatterns fullPath
        then []
        else
          (if nameMatches pattern entry then [fullPath] else [])
          ++ match entry with
             | DirEntry _ (Some entries) => flat_map (search fullPath) entries
             | _ => []
             end
    end.
Proof. by destruct entry. Qed.

Lemma searchEntry_sound (entry : Dirent) :
  forall currentPath entries r,
    In entry entries ->
    In r (search currentPath entry) ->
    exists found,
      reached currentPath entries r found /\ nameMatches pattern found = true.
Proof.
  induction entry as [name|name|name below IH] using Dirent_nested_ind;
    intros currentPath entries r Hin Hr; rewrite searchEntry_eq in Hr;
    cbv zeta in Hr;
    destruct (validatePath env args _) as [|valid] eqn:Hvalid; try done;
    destruct (shouldExclude _ _ _ _ _) eqn:Hex; try done;
    apply in_app_or in Hr as [Hr|Hr];
    try (destruct (nameMatches pattern _) eqn:Hname; [|done];
         destruct Hr as [<-|[]];
         eexists; split; [|exact Hname];
         apply ReachedHere; [done|by rewrite Hvalid|done]);
    try done.
  apply in_flat_map in Hr as (e & He & Hr).
  rewrite Forall_forall in IH.
  destruct (IH e (proj2 (list_elem_of_In _ _) He) _ below r He Hr)
    as (found & Hreach & Hname).
  exists found. split; [|done].
  cbn [direntName] in Hvalid, Hex.
  eapply ReachedBelow; [exact Hin|by rewrite Hvalid|exact Hex|exact Hreach].
Qed.

Lemma searchEntry_complete (currentPath : string) (entries : list Dirent)
    (r : string) (found : Dirent) :
  reached currentPath entries r found ->
  nameMatches pattern found = true ->
  In r (flat_map (search currentPath) entries).
Proof.
  intros Hreach Hname.
  induction Hreach as [cur entries entry Hin Hvalid Hex
                      |cur entries name below fullPath entry Hin Hvalid Hex _ IH];
    apply in_flat_map; eexists; (split; [exact Hin|]); rewrite searchEntry_eq;
    cbv zeta; cbn [direntName];
    destruct (validatePath env args _); try done; rewrite Hex;
    apply in_or_app.
  - left. rewrite Hname. by left.
  - right. by apply IH.
Qed.

End SearchFacts.

(** X20: [searchFiles] fails only when the root cannot be read. Otherwise it
    returns exactly the full paths of the reached entries whose name
    contains the pattern, letter case ignored: an entry is reached when
    [validatePath] accepts its path, no exclude pattern matches it, and the
    same holds for every directory above it, all of them readable. *)
Theorem searchFiles_reports_reached_matches (env : NodeEnv) (args : list string)
    (minimatch : string -> string -> bool) (relative : string -> string -> string)
    (rootPath pattern : string) (excludePatterns : list string)
    (rootEntries : option (list Dirent)) :
  match searchFiles env args minimatch relative rootPath pattern excludePatterns
          rootEntries with
  | inl e => rootEntries = None /\ e = FsFault rootPath
  | inr results =>
      exists entries, rootEntries = Some entries /\
      forall r, In r results <->
        exists found,
          Reached env args minimatch relative rootPath excludePatterns
            rootPath entries r found /\
          includes (toLowerCase (direntName found)) (toLowerCase pattern) = true
  end.
Proof.
  destruct rootEntries as [entries|]; simpl; [|done].
  exists entries. split; [done|]. intros r. split.
  - intros Hr. apply in_flat_map in Hr as (e & He & Hr).
    by eapply searchEntry_sound.
  - intros (found & Hreach & Hname). by eapply searchEntry_complete.
Qed.

Lemma searchFiles_reports_reached_matches_witness :
  match searchFiles plainEnv demoArgs (fun _ _ => false) (fun _ p => p)
          "/a/allowed" "main" [] (Some demoTree) with
  | inr results => In "/a/allowed/src/Main.ts" results
  | inl _ => False
  end.
Proof.
  pose proof (searchFiles_reports_reached_matches plainEnv demoArgs
                (fun _ _ => false) (fun _ p => p) "/a/allowed" "main" []
                (Some demoTree)) as H.
  destruct (searchFiles _ _ _ _ _ _ _ _) as [e|results].
  - by destruct H.
  - destruct H as (entries & [= <-] & Hiff). apply Hiff.
    exists (FileEntry "Main.ts"). split; [|reflexivity].
    eapply (ReachedBelow _ _ _ _ _ _ "/a/allowed" demoTree "src");
      [right; left; reflexivity | reflexivity | reflexivity |].
    apply (ReachedHere _ _ _ _ _ _ "/a/allowed/src" _ (FileEntry "Main.ts"));
      [left; reflexivity | reflexivity | reflexivity].
Defined.

(** ** The arguments of ripgrep *)

Lemma filter_flat_map_glob (prefix : string) (patterns : list string) :
  Forall (fun p => prefix +:+ p <> "") patterns ->
  List.filter (fun a => negb (isEmpty a))
              (flat_map (fun p => ["-g"; prefix +:+ p]) patterns)
    = flat_map (fun p => ["-g"; prefix +:+ p]) patterns.
Proof.
  induction 1 as [|p patterns Hp _ IH]; [done|]. simpl. rewrite IH.
  by destruct (prefix +:+ p).
Qed.

(** X21: no argument handed to ripgrep is empty. With a non-empty query
    and target and no empty include pattern, the arguments are the three
    fixed flags, the flags of the options that are set, a [-g] pair per
    include and per negated exclude pattern, then [--], the query and the
    target. An empty query is dropped, so [--] is followed by the target
    alone. *)
Theorem ripgrepArgs_shape (query : string) (isRegex matchCase wholeWord : bool)
    (includePatterns excludePatterns : list string) (target : string) :
  let rgArgs := ripgrepArgs query isRegex matchCase wholeWord
                  includePatterns excludePatterns target in
  let flags :=
    ["--json"; "--line-number"; "--column"]
    ++ (if matchCase then [] else ["--ignore-case"])
    ++ (if wholeWord then ["--word-regexp"] else [])
    ++ (if isRegex then [] else ["--fixed-strings"]) in
  let globs :=
    flat_map (fun p => ["-g"; p]) includePatterns
    ++ flat_map (fun p => ["-g"; "!" +:+ p]) excludePatterns in
  Forall (fun a => a <> "") rgArgs /\
  (target <> "" -> Forall (fun p => p <> "") includePatterns ->
   (query <> "" -> rgArgs = flags ++ globs ++ ["--"; query; target]) /\
   (query = "" -> rgArgs = flags ++ globs ++ ["--"; target])).
Proof.
  intros rgArgs flags globs. split.
  - subst rgArgs. unfold ripgrepArgs. apply Forall_forall. intros a Ha.
    apply list_elem_of_In, filter_In in Ha as [_ Ha]. by destruct a.
  - intros Htarget Hinc.
    assert (Hglobs : List.filter (fun a => negb (isEmpty a)) globs = globs).
    { subst globs. rewrite List.filter_app. f_equal.
      - apply (filter_flat_map_glob "" includePatterns).
        eapply Forall_impl; [exact Hinc|]. done.
      - apply filter_flat_map_glob. apply Forall_forall. done. }
    subst rgArgs. unfold ripgrepArgs.
    change (flat_map (fun p => ["-g"; p]) includePatterns
            ++ flat_map (fun p => ["-g"; "!" +:+ p]) excludePatterns
            ++ ["--"; query; target])
      with (flat_map (fun p => ["-g"; p]) includePatterns
            ++ (flat_map (fun p => ["-g"; "!" +:+ p]) excludePatterns
            ++ ["--"; query; target])).
    rewrite (app_assoc (flat_map _ includePatterns)). fold globs.
    rewrite List.filter_app, (List.filter_app _ globs), Hglobs.
    split; intros Hq.
    + destruct matchCase, wholeWord, isRegex, query, target; done.
    + subst query. destruct matchCase, wholeWord, isRegex, target; done.
Qed.

Lemma ripgrepArgs_shape_witness :
  ripgrepArgs "-x" false true false ["*.ts"] ["dist"] "."
    = ["--json"; "--line-number"; "--column"; "--fixed-strings";
       "-g"; "*.ts"; "-g"; "!dist"; "--"; "-x"; "."].
Proof.
  destruct (ripgrepArgs_shape "-x" false true false ["*.ts"] ["dist"] ".")
    as [_ H].
  destruct H as [H _]; [discriminate | repeat constructor; discriminate |].
  apply H. discriminate.
Defined.

(** ** The handlers *)

(** X22: a tool call whose path is missing or rejected by [validatePath]
    fails and changes neither a file nor the history. *)
Theorem callTool_rejected_path_no_effect (env : NodeEnv) (args : list string)
    (patch : string -> string -> string -> string -> string -> string -> string)
    (tool : Tool) (a : ToolArgs) (st : State) :
  (forall path, arg_path a = Some path ->
                isOk (validatePath env args path) = false) ->
  isError (fst (callTool env args patch tool a st)) = true /\
  snd (callTool env args patch tool a st) = st.
Proof.
  intros Hpath.
  assert (Hv : forall A path (k : string -> Handler A),
            arg_path a = Some path ->
            isError (fst (withValidPath env args path k st)) = true /\
            snd (withValidPath env args path k st) = st).
  { intros A path k Hp. unfold withValidPath.
    specialize (Hpath path Hp). by destruct (validatePath env args path). }
  destruct tool; simpl; unfold strReplace;
    destruct (arg_path a) as [path|] eqn:Hp; try done;
    repeat match goal with
           | |- context [match ?x with _ => _ end] =>
               lazymatch x with
               | arg_old_str a => destruct x
               | arg_new_str a => destruct x
               | arg_insert_line a => destruct x
               | arg_content a => destruct x
               | arg_command a ≫= parseCommand => destruct x
               end
           end;
    try done; by apply Hv.
Qed.

Lemma callTool_rejected_path_no_effect_witness :
  let a := {| arg_command := Some "str_replace"; arg_path := Some "/etc/passwd";
              arg_old_str := Some "root"; arg_new_str := Some "toor";
              arg_insert_line := None; arg_content := None |} in
  let st := initialState {[ "/etc/passwd" := "root" ]} in
  isError (fst (callTool demoEnv demoArgs plainPatch ToolStrReplaceEditor a st)) = true /\
  snd (callTool demoEnv demoArgs plainPatch ToolStrReplaceEditor a st) = st.
Proof.
  intros a st.
  apply (callTool_rejected_path_no_effect demoEnv demoArgs plainPatch
           ToolStrReplaceEditor a st).
  intros path [= <-]. reflexivity.
Defined.

(** X23: with the command [str_replace], [str_replace_editor] refuses an
    empty [old_str] or [new_str] ("str_replace command requires old_str and
    new_str") after the path has been validated, and changes nothing. The
    same arguments make the edit when they are given to [str_replace], to
    [str_replace_based_edit_tool], or to [str_replace_editor] without one of
    its commands: a deletion (empty [new_str]) goes through these three. *)
Theorem str_replace_editor_refuses_empty_operand (env : NodeEnv)
    (args : list string)
    (patch : string -> string -> string -> string -> string -> string -> string)
    (a : ToolArgs) (st : State) (path validPath old_str new_str : string) :
  arg_path a = Some path ->
  arg_old_str a = Some old_str ->
  arg_new_str a = Some new_str ->
  validatePath env args path = inr validPath ->
  isEmpty old_str || isEmpty new_str = true ->
  let edit := run (applyFileEdits patch validPath
                     [ {| oldText := old_str; newText := new_str |} ] false) st in
  (arg_command a = Some "str_replace" ->
   callTool env args patch ToolStrReplaceEditor a st = (inl RequiresOldAndNew, st)) /\
  (arg_command a ≫= parseCommand = None ->
   callTool env args patch ToolStrReplaceEditor a st = edit) /\
  callTool env args patch ToolStrReplace a st = edit /\
  callTool env args patch ToolStrReplaceBasedEditTool a st = edit.
Proof.
  intros Hp Ho Hn Hv He edit. subst edit. simpl.
  unfold strReplace, withValidPath. rewrite Hp, Ho, Hn, Hv.
  split_and!; [|by intros ->|done|done].
  intros ->. simpl. by rewrite He.
Qed.

Lemma str_replace_editor_refuses_empty_operand_witness :
  let a c := {| arg_command := c; arg_path := Some "f.txt";
                arg_old_str := Some "foo"; arg_new_str := Some "";
                arg_insert_line := None; arg_content := None |} in
  let st := initialState {[ "/a/allowed/f.txt" := "foobar" ]} in
  let written tool c :=
    files (snd (callTool demoEnv demoArgs plainPatch tool (a c) st))
      !! "/a/allowed/f.txt" in
  callTool demoEnv demoArgs plainPatch ToolStrReplaceEditor (a (Some "str_replace")) st
    = (inl RequiresOldAndNew, st) /\
  written ToolStrReplaceEditor None = Some "bar" /\
  written ToolStrReplace (Some "str_replace") = Some "bar" /\
  written ToolStrReplaceBasedEditTool (Some "str_replace") = Some "bar".
Proof.
  intros a st written. subst written.
  destruct (str_replace_editor_refuses_empty_operand demoEnv demoArgs plainPatch
              (a (Some "str_replace")) st "f.txt" "/a/allowed/f.txt" "foo" ""
              eq_refl eq_refl eq_refl eq_refl eq_refl) as (H1 & _ & H3 & H4).
  destruct (str_replace_editor_refuses_empty_operand demoEnv demoArgs plainPatch
              (a None) st "f.txt" "/a/allowed/f.txt" "foo" ""
              eq_refl eq_refl eq_refl eq_refl eq_refl) as (_ & H2 & _ & _).
  split_and!.
  - exact (H1 eq_refl).
  - cbv beta. rewrite (H2 eq_refl). reflexivity.
  - cbv beta. rewrite H3. reflexivity.
  - cbv beta. rewrite H4. reflexivity.
Defined.

(** X24: a call of [str_replace_editor] without one of the three commands
    is handled as a call of [str_replace] when [path], [old_str] and
    [new_str] are there; with a command, [insert] accepts line 0 and
    [undo_edit] needs nothing but the path. *)
Theorem str_replace_editor_dispatch (env : NodeEnv) (args : list string)
    (patch : string -> string -> string -> string -> string -> string -> string)
    (a : ToolArgs) (st : State) (path validPath : string) :
  arg_path a = Some path ->
  validatePath env args path = inr validPath ->
  (arg_command a ≫= parseCommand = None ->
   is_Some (arg_old_str a) -> is_Some (arg_new_str a) ->
   callTool env args patch ToolStrReplaceEditor a st
     = callTool env args patch ToolStrReplace a st) /\
  (arg_command a = Some "undo_edit" ->
   callTool env args patch ToolStrReplaceEditor a st
     = run (undoEdit patch validPath path) st) /\
  (forall insert_line new_str,
     arg_command a = Some "insert" ->
     arg_insert_line a = Some insert_line ->
     arg_new_str a = Some new_str ->
     isEmpty new_str = false ->
     callTool env args patch ToolStrReplaceEditor a st
       = callTool env args patch ToolInsert a st).
Proof.
  intros Hp Hv. split_and!.
  - intros Hc [o Ho] [n Hn]. simpl. unfold strReplace. by rewrite Hp, Hc, Ho, Hn.
  - intros Hc. simpl. unfold withValidPath. by rewrite Hp, Hc, Hv.
  - intros insert_line new_str Hc Hl Hn He. simpl. unfold withValidPath.
    by rewrite Hp, Hc, Hl, Hn, Hv, He.
Qed.

Lemma str_replace_editor_dispatch_witness :
  let a := {| arg_command := Some "undo_edit"; arg_path := Some "f.txt";
              arg_old_str := None; arg_new_str := None;
              arg_insert_line := None; arg_content := None |} in
  callTool demoEnv demoArgs plainPatch ToolStrReplaceEditor a (initialState ∅)
    = (inl (Thrown (NoHistory "f.txt")), initialState ∅).
Proof.
  intros a.
  destruct (str_replace_editor_dispatch demoEnv demoArgs plainPatch a
              (initialState ∅) "f.txt" "/a/allowed/f.txt" eq_refl eq_refl)
    as (_ & Hundo & _).
  rewrite (Hundo eq_refl). reflexivity.
Defined.

(** ** The permission digits *)

Lemma isOctal_cons (c : ascii) (s : string) (d : N) :
  OctalString.ascii_to_digit c = Some d -> (d < 8)%N -> isOctal s ->
  isOctal (String c s).
Proof. intros Hd Hlt Hs. constructor; [by exists d | done]. Qed.

Lemma isOctal_of_pos :
  forall (p : positive) (rest : string),
    isOctal rest -> isOctal (OctalString.Raw.of_pos p rest).
Proof.
  fix IH 1. intros p rest Hrest.
  do 3 (try destruct p as [p|p|]); cbn [OctalString.Raw.of_pos];
    try apply IH;
    (eapply isOctal_cons; [reflexivity | reflexivity | done]).
Qed.

Lemma to_N_app (a b : string) (r : N) :
  OctalString.Raw.to_N (a +:+ b) r
    = OctalString.Raw.to_N b (OctalString.Raw.to_N a r).
Proof.
  revert r; induction a as [|c a IH]; intros r; [done|].
  rewrite app_cons_s. simpl. apply IH.
Qed.

Lemma to_N_isOctal (s : string) :
  isOctal s ->
  forall r,
    (OctalString.Raw.to_N s r
       = r * 8 ^ N.of_nat (String.length s) + OctalString.Raw.to_N s 0)%N /\
    (OctalString.Raw.to_N s 0 < 8 ^ N.of_nat (String.length s))%N.
Proof.
  induction s as [|c s IH]; intros Hs r.
  - simpl. split; lia.
  - inversion Hs as [|? ? (d & Hd & Hlt) Hs']; subst.
    cbn [OctalString.Raw.to_N String.length]. rewrite Hd.
    destruct (IH Hs' (d + 8 * r)%N) as [IH1 _].
    destruct (IH Hs' (d + 8 * 0)%N) as [IH2 IH3].
    rewrite IH1, IH2. rewrite Nat2N.inj_succ, N.pow_succ_r'.
    split; nia.
Qed.

Lemma length_dropS (n : nat) (s : string) :
  String.length (dropS n s) = String.length s - n.
Proof.
  revert s; induction n as [|n IH]; intros [|c s]; simpl; done.
Qed.

Lemma isOctal_dropS (n : nat) (s : string) : isOctal s -> isOctal (dropS n s).
Proof.
  revert s; induction n as [|n IH]; intros [|c s] H; simpl; try done.
  apply IH. by inversion H.
Qed.

(** X25: the permission text consists of at most three octal digits and
    reads, as an octal number, as the mode modulo 8^3: the file-type bits
    above the nine permission bits are cut off. *)
Theorem permissions_low_nine_bits (mode : N) :
  isOctal (permissions mode) /\
  String.length (permissions mode) <= 3 /\
  OctalString.Raw.to_N (permissions mode) 0 = (mode mod 512)%N.
Proof.
  assert (Hoct : isOctal (toOctalString mode)).
  { destruct mode as [|p]; simpl.
    - eapply isOctal_cons; [reflexivity | reflexivity | constructor].
    - apply isOctal_of_pos. constructor. }
  assert (Hval : OctalString.Raw.to_N (toOctalString mode) 0 = mode).
  { destruct mode as [|p]; [done|]. simpl.
    by rewrite OctalString.Raw.to_N_of_pos. }
  unfold permissions, sliceFrom, relativeStart.
  set (s := toOctalString mode) in *. change (-3 <? 0)%Z with true. cbv iota.
  replace (Z.to_nat (Z.max (Z.of_nat (String.length s) + -3) 0))
    with (String.length s - 3) by lia.
  set (k := String.length s - 3).
  assert (Hk : k = String.length s - 3) by done.
  split_and!.
  - by apply isOctal_dropS.
  - rewrite length_dropS. lia.
  - pose proof (isOctal_dropS k s Hoct) as Hd.
    destruct (to_N_isOctal _ Hd (OctalString.Raw.to_N (takeS k s) 0)) as [H1 H2].
    rewrite <- (takeS_dropS k s), to_N_app in Hval. rewrite H1 in Hval.
    rewrite length_dropS in H1, H2, Hval.
    destruct (decide (3 <= String.length s)) as [Hlen|Hlen].
    + replace (String.length s - k) with 3 in * by lia.
      change (8 ^ N.of_nat 3)%N with 512%N in *.
      apply (N.mod_unique _ _ (OctalString.Raw.to_N (takeS k s) 0)); [done|lia].
    + replace k with 0 in * by lia. simpl in Hval. rewrite Nat.sub_0_r in H2.
      assert (OctalString.Raw.to_N s 0 < 512)%N.
      { eapply N.lt_le_trans; [exact H2|].
        change 512%N with (8 ^ 3)%N. apply N.pow_le_mono_r; lia. }
      assert (Hm : OctalString.Raw.to_N s 0 = mode) by lia.
      change (dropS 0 s) with s. rewrite Hm in *. symmetry. by apply N.mod_small.
Qed.
